(** * Charset detection (libaegisub/common/charset.cpp)

    A shallow embedding of [agi::charset::Detect] and the properties of
    its signature check, binary heuristic and incremental UTF-8
    validator. *)

From Stdlib Require Import String.
From Stdlib.Strings Require Import Byte.
From Stdlib Require Import ZArith List Bool Lia.
Import ListNotations.

#[local] Open Scope string_scope.
#[local] Open Scope list_scope.
#[local] Open Scope Z_scope.

(** * The text measured by [SubtitlesProvider::CalculateTextExtents]
    (src/subtitles_provider.cpp) *)
Module subtitles_provider.

(** [R"({\an7\pos(0,0)})"] *)
Definition tags : list byte :=
  [x7b; x5c; x61; x6e; x37; x5c; x70; x6f; x73; x28; x30; x2c; x30; x29; x7d].

(** What the [switch] appends for the character [c]. *)
Definition escaped (c : byte) : list byte :=
  if Byte.eqb c x0a then [x5c; x4e]
  else if Byte.eqb c x20 then [x5c; x68]
  else if Byte.eqb c x7b then [x5c; x7b]
  else [c].

(** [ass_text] after [ass_text += tags] and the loop over [text]. *)
Definition ass_text (text : list byte) : list byte :=
  fold_left (fun acc c => acc ++ escaped c) text tags.

(** The argument of [ass_text.reserve]. *)
Definition reserved (text : list byte) : nat :=
  (length tags + length text * 2)%nat.

End subtitles_provider.

(** * Charset detection *)
Module charset.

(** ** Bytes and machine integers *)

(** [(unsigned char) c] : the value of a byte, in [0, 256). *)
Definition uchar (c : byte) : Z := Z.of_N (Byte.to_N c).

(** Arithmetic on [uint64_t] wraps modulo 2^64. *)
Definition u64 (x : Z) : Z := x mod 2 ^ 64.

(** [std::countl_one] at type [unsigned char]: the number of consecutive
    one bits, starting from bit 7. [countl_one_from w x] inspects the
    bits [w-1], [w-2], ..., [0] of [x]. *)
Fixpoint countl_one_from (w : nat) (x : Z) : Z :=
  match w with
  | O => 0
  | S w' => if Z.testbit x (Z.of_nat w') then 1 + countl_one_from w' x else 0
  end.

Definition countl_one (c : byte) : Z := countl_one_from 8 (uchar c).

(** ** [strncmp]

    C strings are [list byte]; reading past the end of the list reads the
    terminating NUL, which is how the string literals of [Detect] are
    laid out. [header] always holds the four mapped bytes and [n <= 4],
    so no byte after the mapping is read. The comparison stops at the
    first difference, after [n] characters, or after a NUL found in both
    strings. *)
Fixpoint strncmp (s1 s2 : list byte) (n : nat) : Z :=
  match n with
  | O => 0
  | S n' =>
      let c1 := uchar (hd x00 s1) in
      let c2 := uchar (hd x00 s2) in
      if negb (c1 =? c2) then c1 - c2
      else if c1 =? 0 then 0
      else strncmp (tl s1) (tl s2) n'
  end.

(** The magic-byte checks on the first four bytes of the file, in the
    order of the source; [None] when no check matches. *)
Definition magic_bytes (header : list byte) : option string :=
  if strncmp header [xef; xbb; xbf] 3 =? 0 then Some "utf-8"
  else if strncmp header [x00; x00; xfe; xff] 4 =? 0 then Some "utf-32be"
  else if strncmp header [xff; xfe; x00; x00] 4 =? 0 then Some "utf-32le"
  else if strncmp header [xfe; xff] 2 =? 0 then Some "utf-16be"
  else if strncmp header [xff; xfe] 2 =? 0 then Some "utf-16le"
  else if strncmp header [x1a; x45; xdf; xa3] 4 =? 0 then Some "binary"
  else None.

(** ** The byte source and its failures *)

Inductive error : Type :=
| IOError        (* the mapping could not be opened, or a read failed *)
| FuelExhausted. (* the bound on loop iterations was too small *)

Inductive result (A : Type) : Type :=
| Ok (a : A)
| Fail (e : error).
Arguments Ok {A} a.
Arguments Fail {A} e.

(** One [fp.read(offset, length)] call and whether it succeeded. *)
Record read_event : Type := ReadEvent {
  ev_offset : Z;
  ev_length : Z;
  ev_ok : bool
}.

(** Modelled from the spec: [agi::read_file_mapping] (libaegisub/file_mapping.h)
    is not part of the sources at hand. A mapping has a total size and
    serves [read(offset, length)], which fails when [offset + length]
    exceeds the size; any read may also fail for a reason of the
    environment, which [faulty] decides from the number of reads issued
    before it. *)
Record read_file_mapping : Type := FileMapping {
  contents : list byte;
  faulty : nat -> bool
}.

Definition size (fp : read_file_mapping) : Z := Z.of_nat (length (contents fp)).

(** Computations that read from a mapping: they thread the log of the
    reads issued so far and end in a value or in an error. *)
Definition io (A : Type) : Type := list read_event -> list read_event * result A.

Definition ret {A} (a : A) : io A := fun log => (log, Ok a).

Definition raise {A} (e : error) : io A := fun log => (log, Fail e).

Definition bind {A B} (m : io A) (k : A -> io B) : io B :=
  fun log =>
    match m log with
    | (log', Ok a) => k a log'
    | (log', Fail e) => (log', Fail e)
    end.

Notation "x <- m ;; k" := (bind m (fun x => k))
  (at level 61, m at next level, right associativity).

Definition slice (l : list byte) (offset len : Z) : list byte :=
  firstn (Z.to_nat len) (skipn (Z.to_nat offset) l).

Definition read (fp : read_file_mapping) (offset len : Z) : io (list byte) :=
  fun log =>
    let ok := (0 <=? offset) && (0 <=? len) && (offset + len <=? size fp)
              && negb (faulty fp (length log)) in
    (log ++ [ReadEvent offset len ok],
     if ok then Ok (slice (contents fp) offset len) else Fail IOError).

(** Modelled from the spec: the constructor [read_file_mapping fp(file)]
    fails when the file cannot be opened. A file system maps a path to
    the mapping it opens, or to nothing. *)
Definition file_system : Type := string -> option read_file_mapping.

Definition open (fs : file_system) (file : string) : io read_file_mapping :=
  match fs file with
  | Some fp => ret fp
  | None => raise IOError
  end.

(** ** The statistical detector

    [uchardet] is an external library; [Detect] only creates a detector,
    feeds it every window, finalises it and asks for its guess. *)
Class uchardet : Type := UCharDet {
  uchardet_t : Type;
  uchardet_new : uchardet_t;
  uchardet_handle_data : uchardet_t -> list byte -> uchardet_t;
  uchardet_data_end : uchardet_t -> uchardet_t;
  uchardet_get_charset : uchardet_t -> string
}.

(** The two ways of compiling the file: with or without [WITH_UCHARDET]. *)
Inductive build : Type :=
| WITH_UCHARDET (ud : uchardet)
| WITHOUT_UCHARDET.

(** ** The scan *)

(** The binary heuristic's test on one byte. *)
Definition control_like (c : byte) : bool :=
  (uchar c <? 32)
  && (negb (uchar c =? uchar x0d) && negb (uchar c =? uchar x0a)
      && negb (uchar c =? uchar x09)).

(** [if (control_like) ++binaryish;] *)
Definition count_binaryish (binaryish : Z) (c : byte) : Z :=
  if control_like c then u64 (binaryish + 1) else binaryish.

(** The variables of [Detect] that live across windows. *)
Record detection_state : Type := DetectionState {
  offset : Z;
  binaryish : Z;
  utf8_errors : Z;
  utf8_cont_bytes : Z
}.

Definition initial_state : detection_state :=
  {| offset := 0; binaryish := 0; utf8_errors := 0; utf8_cont_bytes := 0 |}.

(** The part of the inner loop's body that validates UTF-8, on the pair
    [(utf8_errors, utf8_cont_bytes)]. *)
Definition utf8_step (errors cont : Z) (c : byte) : Z * Z :=
  let l_ones := countl_one c in
  if negb (cont =? 0) && (l_ones =? 1) then
    (errors, cont - 1)
  else
    let '(errors, cont) :=
      if negb (cont =? 0) then (u64 (errors + 1), 0) else (errors, cont) in
    if l_ones >? 4 then (u64 (errors + 1), cont)
    else if l_ones >? 1 then (errors, l_ones - 1)
    else if l_ones =? 1 then (u64 (errors + 1), cont)
    else (errors, cont).

(** The body of the inner [for] loop, for the byte [buf[i]]. *)
Definition byte_step (st : detection_state) (c : byte) : detection_state :=
  let binaryish' := count_binaryish (binaryish st) c in
  let '(errors', cont') := utf8_step (utf8_errors st) (utf8_cont_bytes st) c in
  {| offset := offset st;
     binaryish := binaryish';
     utf8_errors := errors';
     utf8_cont_bytes := cont' |}.

(** [offset += read;] *)
Definition advance (st : detection_state) (read : Z) : detection_state :=
  {| offset := u64 (offset st + read);
     binaryish := binaryish st;
     utf8_errors := utf8_errors st;
     utf8_cont_bytes := utf8_cont_bytes st |}.

(** [offset += read] followed by the inner loop over the window [buf],
    which holds the [read] bytes the mapping returned. *)
Definition window_step (st : detection_state) (buf : list byte) (read : Z)
  : detection_state :=
  fold_left byte_step buf (advance st read).

(** How the outer loop ends: by [return "binary"] inside it, or by its
    condition [offset < fp.size()] becoming false. *)
Inductive scan_result (ud : Type) : Type :=
| Binary (st : detection_state) (d : ud)
| Scanned (st : detection_state) (d : ud).
Arguments Binary {ud} st d.
Arguments Scanned {ud} st d.

Section WithUchardet.
Context {U : uchardet}.

(** The outer loop. Each iteration reads a window of at least one byte,
    so [fuel] bounds the number of iterations. *)
Fixpoint scan (fuel : nat) (fp : read_file_mapping) (d : uchardet_t)
    (st : detection_state) : io (scan_result uchardet_t) :=
  match fuel with
  | O => raise FuelExhausted
  | S fuel' =>
      if offset st <? size fp then
        let read_len := Z.min 4096 (size fp - offset st) in
        buf <- read fp (offset st) read_len ;;
        let d' := uchardet_handle_data d buf in
        let st' := window_step st buf read_len in
        if binaryish st' >? offset st' / 8 then ret (Binary st' d')
        else scan fuel' fp d' st'
      else ret (Scanned st d)
  end.

(** Iterations that suffice for a mapping of this size. *)
Definition scan_fuel (fp : read_file_mapping) : nat :=
  Z.to_nat (size fp / 4096) + 2.

(** The check after the loop for a sequence cut by the end of the file. *)
Definition final_utf8_errors (st : detection_state) : Z :=
  if negb (utf8_cont_bytes st =? 0) then u64 (utf8_errors st + 1)
  else utf8_errors st.

(** The code under [#ifdef WITH_UCHARDET]. *)
Definition detect_uchardet (fp : read_file_mapping) : io string :=
  r <- scan (scan_fuel fp) fp uchardet_new initial_state ;;
  match r with
  | Binary _ _ => ret "binary"
  | Scanned st d =>
      if final_utf8_errors st <? 5 then ret "utf-8"
      else ret (uchardet_get_charset (uchardet_data_end d))
  end.

End WithUchardet.

(** The code under [#else]. *)
Definition detect_plain (fp : read_file_mapping) : io string :=
  let read_len := Z.min 4096 (size fp) in
  buf <- read fp 0 read_len ;;
  let binaryish := fold_left count_binaryish buf 0 in
  if binaryish >? read_len / 8 then ret "binary" else ret "utf-8".

(** [agi::charset::Detect]. *)
Definition Detect (b : build) (fs : file_system) (file : string) : io string :=
  fp <- open fs file ;;
  sig <- (if size fp >=? 4 then
            header <- read fp 0 4 ;; ret (magic_bytes header)
          else ret None) ;;
  match sig with
  | Some label => ret label
  | None =>
      if size fp >? 100 * 1024 * 1024 then ret "binary"
      else
        match b with
        | WITH_UCHARDET ud => @detect_uchardet ud fp
        | WITHOUT_UCHARDET => detect_plain fp
        end
  end.

(** ** Notions used to state the properties *)

(** A mapping none of whose reads fails for a reason of the environment. *)
Definition reliable (fp : read_file_mapping) : Prop :=
  forall n, faulty fp n = false.

(** The magic-byte check found nothing: it did not run (fewer than four
    bytes) or none of its comparisons succeeded. *)
Definition no_signature (fp : read_file_mapping) : Prop :=
  size fp < 4 \/ magic_bytes (slice (contents fp) 0 4) = None.

(** The number of control-like bytes of [l]. *)
Fixpoint control_count (l : list byte) : Z :=
  match l with
  | [] => 0
  | c :: l' => (if control_like c then 1 else 0) + control_count l'
  end.

(** The state reached by feeding all of [l] to the loop body as one
    window, from the initial state. *)
Definition single_window (l : list byte) : detection_state :=
  window_step initial_state l (Z.of_nat (length l)).

(** The value of [offset] after [k] windows of a file of [n] bytes. *)
Definition window_end (n : Z) (k : Z) : Z := Z.min (4096 * k) n.

(** The bytes of [l] that lie in its first [k] windows. *)
Definition windows (l : list byte) (k : Z) : list byte :=
  firstn (Z.to_nat (window_end (Z.of_nat (length l)) k)) l.

(** The binary test after the [k]-th window succeeds. *)
Definition trips (l : list byte) (k : Z) : Prop :=
  control_count (windows l k) > window_end (Z.of_nat (length l)) k / 8.

(** *** The scan as a transition system

    The points of the scan where the state can be observed: the head of
    the outer loop, and inside a window with the bytes [buf[i..]] still
    to be processed. *)
Inductive point : Type :=
| LoopHead
| InWindow (rest : list byte).

Inductive step (fp : read_file_mapping)
  : point * detection_state -> point * detection_state -> Prop :=
| step_window st :
    offset st < size fp ->
    let read_len := Z.min 4096 (size fp - offset st) in
    step fp (LoopHead, st)
      (InWindow (slice (contents fp) (offset st) read_len),
       advance st read_len)
| step_byte st c rest :
    step fp (InWindow (c :: rest), st) (InWindow rest, byte_step st c)
| step_next st :
    binaryish st <= offset st / 8 ->
    step fp (InWindow [], st) (LoopHead, st).

Inductive steps (fp : read_file_mapping)
  : point * detection_state -> point * detection_state -> Prop :=
| steps_refl c : steps fp c c
| steps_step c1 c2 c3 : steps fp c1 c2 -> step fp c2 c3 -> steps fp c1 c3.

Definition reachable (fp : read_file_mapping) (c : point * detection_state)
  : Prop :=
  steps fp (LoopHead, initial_state) c.

(** The read of the header, when [Detect] issues it. *)
Definition header_events (fp : read_file_mapping) : list read_event :=
  if size fp >=? 4 then [ReadEvent 0 4 true] else [].

(** What [Detect] does after the magic-byte check found nothing. *)
Definition after_signature (b : build) (fp : read_file_mapping) : io string :=
  if size fp >? 100 * 1024 * 1024 then ret "binary"
  else
    match b with
    | WITH_UCHARDET ud => @detect_uchardet ud fp
    | WITHOUT_UCHARDET => detect_plain fp
    end.

(** A mapping of the bytes [l] whose reads never fail, and the file
    system that holds only this mapping. *)
Definition memory_file (l : list byte) : read_file_mapping :=
  FileMapping l (fun _ => false).

Definition one_file (fp : read_file_mapping) : file_system :=
  fun _ => Some fp.

(** A detector that knows one answer. *)
Definition latin1_detector : uchardet :=
  {| uchardet_t := unit;
     uchardet_new := tt;
     uchardet_handle_data := fun _ _ => tt;
     uchardet_data_end := fun _ => tt;
     uchardet_get_charset := fun _ => "windows-1252" |}.

(** Sample files. *)
Definition control_prefix_file : read_file_mapping :=
  memory_file (repeat x01 513 ++ repeat x61 3583 ++ repeat xff 100).

Definition ascii_file : read_file_mapping :=
  memory_file (repeat x61 5000 ++ [x0d; x0a; x00; x62]).


(** The number of bytes of the current window that are still to be
    processed at a point. *)
Definition unprocessed (pt : point) : Z :=
  match pt with
  | LoopHead => 0
  | InWindow rest => Z.of_nat (length rest)
  end.

(** What holds of the state at every point of the scan of [fp]. *)
Definition state_invariant (fp : read_file_mapping)
    (c : point * detection_state) : Prop :=
  let done := offset (snd c) - unprocessed (fst c) in
  0 <= done /\ offset (snd c) <= size fp
  /\ 0 <= binaryish (snd c) <= done
  /\ 0 <= utf8_cont_bytes (snd c) <= 3
  /\ 0 <= utf8_errors (snd c) <= 2 * done.

Definition faulty_file : read_file_mapping :=
  FileMapping [x61; x62; x63; x64; x65] (fun n => Nat.eqb n 1).

(** *** Failure propagation

    A computation propagates read failures when it only appends to the
    log and, if one of the reads it issued failed, ends in [IOError]. *)
Definition failed (ev : read_event) : Prop := ev_ok ev = false.

Definition propagates {A} (m : io A) : Prop :=
  forall log, exists evs,
    fst (m log) = log ++ evs
    /\ (Exists failed evs -> snd (m log) = Fail IOError).

(** *** Further notions

    The windows of a file, in the order the loop reads them: window [i]
    starts at [4096 * i] and holds [min(4096, size - 4096 * i)] bytes. *)
Definition window (l : list byte) (i : nat) : list byte :=
  slice l (4096 * Z.of_nat i)
    (Z.min 4096 (Z.of_nat (length l) - 4096 * Z.of_nat i)).

Definition window_count (l : list byte) : nat :=
  Z.to_nat ((Z.of_nat (length l) + 4095) / 4096).

Definition window_list (l : list byte) : list (list byte) :=
  map (window l) (seq 0 (window_count l)).

(** The read that fetches window [i]. *)
Definition window_event (l : list byte) (i : nat) : read_event :=
  ReadEvent (4096 * Z.of_nat i)
    (Z.min 4096 (Z.of_nat (length l) - 4096 * Z.of_nat i)) true.

(** Byte strings made of ASCII bytes and of lead bytes of two to four
    leading ones, each followed by the continuation bytes it announces. *)
Inductive utf8_shaped : list byte -> Prop :=
| shaped_nil : utf8_shaped []
| shaped_ascii c l :
    countl_one c = 0 -> utf8_shaped l -> utf8_shaped (c :: l)
| shaped_sequence lead conts l :
    2 <= countl_one lead <= 4 ->
    Z.of_nat (length conts) = countl_one lead - 1 ->
    Forall (fun c => countl_one c = 1) conts ->
    utf8_shaped l ->
    utf8_shaped (lead :: conts ++ l).

(** A read that lies inside the mapping and is no longer than a window. *)
Definition in_bounds (fp : read_file_mapping) (ev : read_event) : Prop :=
  0 <= ev_offset ev /\ 0 <= ev_length ev <= 4096
  /\ ev_offset ev + ev_length ev <= size fp.

(** The labels that [Detect] spells out itself. *)
Definition fixed_labels : list string :=
  ["utf-8"; "utf-32be"; "utf-32le"; "utf-16be"; "utf-16le"; "binary"].

(** The state and the detector that the loop ends with. *)
Definition final_state {ud} (r : scan_result ud) : detection_state :=
  match r with Binary st _ | Scanned st _ => st end.

Definition final_detector {ud} (r : scan_result ud) : ud :=
  match r with Binary _ d | Scanned _ d => d end.

(** Text with accents, once in UTF-8 and once in Latin-1. *)
Definition utf8_text : list byte :=
  [x63; x61; x66; xc3; xa9; x20; xe2; x82; xac; x20; xf0; x9f; x98; x80; x0a].

Definition latin1_text : list byte :=
  [xe9; x74; xe9; x20; xe0; x20; xe8; x20; xf9].

(** A computation stops at the first read that fails: it only appends
    to the log, all the reads it issued but the last succeeded, and the
    last one did too unless the computation ends in an error. *)
Definition succeeded (ev : read_event) : Prop := ev_ok ev = true.

Definition stops_at_failure {A} (m : io A) : Prop :=
  forall log, exists evs,
    fst (m log) = log ++ evs
    /\ Forall succeeded (removelast evs)
    /\ (forall a, snd (m log) = Ok a -> Forall succeeded evs).

(** A file of more than 100 MiB: four bytes, then as many more. *)
Definition huge_file : read_file_mapping :=
  memory_file
    (x61 :: x62 :: x63 :: x64 :: repeat x20 (Z.to_nat (100 * 1024 * 1024))).

(** *** The signatures as the specification lists them

    Section 4.1 of the specification gives six byte patterns, each with
    its label; a file has one of them when the pattern is a prefix of
    its bytes. *)
Definition listed_signatures : list (list byte * string) :=
  [([xef; xbb; xbf], "utf-8");
   ([x00; x00; xfe; xff], "utf-32be");
   ([xff; xfe; x00; x00], "utf-32le");
   ([xfe; xff], "utf-16be");
   ([xff; xfe], "utf-16le");
   ([x1a; x45; xdf; xa3], "binary")].

Fixpoint starts_with (pattern l : list byte) : bool :=
  match pattern, l with
  | [], _ => true
  | _ :: _, [] => false
  | a :: pattern', b :: l' => Byte.eqb a b && starts_with pattern' l'
  end.

Definition matches_listed_signature (l : list byte) : bool :=
  existsb (fun sig => starts_with (fst sig) l) listed_signatures.

(** Files that open with a NUL byte and with none of the listed
    signatures. *)
Definition nul_control_file : read_file_mapping :=
  memory_file (x00 :: repeat x01 4095 ++ repeat x61 100).

Definition nul_binary_file : read_file_mapping :=
  memory_file [x00; x61; x62; x63].

Definition nul_text_file : read_file_mapping :=
  memory_file (x00 :: repeat x61 15).

(** ** Bytes *)

Lemma uchar_range c : 0 <= uchar c < 256.
Proof. destruct c; vm_compute; split; congruence. Qed.

Lemma countl_one_range c : 0 <= countl_one c <= 8.
Proof. destruct c; vm_compute; split; congruence. Qed.

Lemma countl_one_ascii c : uchar c < 128 -> countl_one c = 0.
Proof. destruct c; vm_compute; congruence. Qed.

Lemma control_like_ascii c : control_like c = true -> uchar c < 32.
Proof.
  unfold control_like. intros H. apply andb_prop in H as [H _]. lia.
Qed.

Lemma gtb_false x y : x <= y -> (x >? y) = false.
Proof. intros H. destruct (Z.gtb_spec x y); [lia | reflexivity]. Qed.

Lemma gtb_true x y : x > y -> (x >? y) = true.
Proof. intros H. destruct (Z.gtb_spec x y); [reflexivity | lia]. Qed.

Lemma u64_small x : 0 <= x < 2 ^ 64 -> u64 x = x.
Proof. intros H. unfold u64. apply Z.mod_small. exact H. Qed.

Lemma u64_add_l x y : u64 (u64 x + y) = u64 (x + y).
Proof. unfold u64. apply Zplus_mod_idemp_l. Qed.

(** ** The loop body *)

Lemma byte_step_advance st n c :
  byte_step (advance st n) c = advance (byte_step st c) n.
Proof.
  unfold byte_step, advance; simpl.
  destruct (utf8_step (utf8_errors st) (utf8_cont_bytes st) c); reflexivity.
Qed.

Lemma fold_byte_step_advance l : forall st n,
  fold_left byte_step l (advance st n) = advance (fold_left byte_step l st) n.
Proof.
  induction l as [|c l IH]; intros st n; simpl; [reflexivity|].
  rewrite byte_step_advance. apply IH.
Qed.

Lemma advance_advance st n m : advance (advance st n) m = advance st (n + m).
Proof.
  unfold advance; simpl. f_equal.
  rewrite u64_add_l. f_equal. lia.
Qed.

(** Two windows in a row act as their concatenation in one window: the
    state carries everything the validator needs across the boundary. *)
Lemma window_step_app st l1 n1 l2 n2 :
  window_step (window_step st l1 n1) l2 n2 = window_step st (l1 ++ l2) (n1 + n2).
Proof.
  unfold window_step.
  rewrite (fold_byte_step_advance l1), advance_advance.
  rewrite !fold_byte_step_advance, fold_left_app. reflexivity.
Qed.

Lemma single_window_app l1 l2 :
  single_window (l1 ++ l2)
  = window_step (single_window l1) l2 (Z.of_nat (length l2)).
Proof.
  unfold single_window. rewrite window_step_app. f_equal.
  rewrite length_app. lia.
Qed.

Lemma control_count_range l : 0 <= control_count l <= Z.of_nat (length l).
Proof.
  induction l as [|c l IH]; simpl length; simpl control_count; [lia|].
  destruct (control_like c); lia.
Qed.

Lemma control_count_app l1 l2 :
  control_count (l1 ++ l2) = control_count l1 + control_count l2.
Proof. induction l1 as [|c l1 IH]; simpl; lia. Qed.

Lemma fold_count_binaryish l : forall n,
  0 <= n -> n + Z.of_nat (length l) < 2 ^ 64 ->
  fold_left count_binaryish l n = n + control_count l.
Proof.
  induction l as [|c l IH]; intros n Hn Hlt; simpl fold_left; simpl control_count.
  - lia.
  - simpl length in Hlt. unfold count_binaryish at 2.
    destruct (control_like c).
    + rewrite u64_small by lia. rewrite IH by lia. lia.
    + rewrite IH by lia. lia.
Qed.

Lemma fold_byte_step_offset l : forall st,
  offset (fold_left byte_step l st) = offset st.
Proof.
  induction l as [|c l IH]; intros st; simpl; [reflexivity|].
  rewrite IH. unfold byte_step.
  destruct (utf8_step (utf8_errors st) (utf8_cont_bytes st) c); reflexivity.
Qed.

Lemma fold_byte_step_binaryish l : forall st,
  binaryish (fold_left byte_step l st)
  = fold_left count_binaryish l (binaryish st).
Proof.
  induction l as [|c l IH]; intros st; simpl; [reflexivity|].
  rewrite IH. unfold byte_step.
  destruct (utf8_step (utf8_errors st) (utf8_cont_bytes st) c); reflexivity.
Qed.

Lemma single_window_offset l :
  Z.of_nat (length l) < 2 ^ 64 ->
  offset (single_window l) = Z.of_nat (length l).
Proof.
  intros H. unfold single_window, window_step.
  rewrite fold_byte_step_offset. simpl. apply u64_small. lia.
Qed.

Lemma single_window_binaryish l :
  Z.of_nat (length l) < 2 ^ 64 ->
  binaryish (single_window l) = control_count l.
Proof.
  intros H. unfold single_window, window_step.
  rewrite fold_byte_step_binaryish. simpl.
  rewrite fold_count_binaryish; lia.
Qed.

(** ** Reading *)

Lemma firstn_plus {A} (a b : nat) : forall l : list A,
  firstn (a + b) l = firstn a l ++ firstn b (skipn a l).
Proof.
  induction a as [|a IH]; intros [|x l]; simpl; try reflexivity.
  - now rewrite firstn_nil.
  - now rewrite IH.
Qed.

Lemma firstn_slice l off len :
  0 <= off -> 0 <= len ->
  firstn (Z.to_nat (off + len)) l = firstn (Z.to_nat off) l ++ slice l off len.
Proof.
  intros Hoff Hlen. unfold slice.
  rewrite Z2Nat.inj_add by assumption. apply firstn_plus.
Qed.

Lemma slice_length l off len :
  0 <= off -> 0 <= len -> off + len <= Z.of_nat (length l) ->
  Z.of_nat (length (slice l off len)) = len.
Proof.
  intros Hoff Hlen Hle. unfold slice.
  rewrite length_firstn, length_skipn. lia.
Qed.

Lemma read_ok fp off len log :
  reliable fp -> 0 <= off -> 0 <= len -> off + len <= size fp ->
  read fp off len log
  = (log ++ [ReadEvent off len true], Ok (slice (contents fp) off len)).
Proof.
  intros Hrel Hoff Hlen Hle. unfold read.
  rewrite Hrel.
  replace (0 <=? off) with true by (symmetry; apply Z.leb_le; lia).
  replace (0 <=? len) with true by (symmetry; apply Z.leb_le; lia).
  replace (off + len <=? size fp) with true by (symmetry; apply Z.leb_le; lia).
  reflexivity.
Qed.

(** ** The outer loop on a reliable mapping *)

Lemma window_end_0 n : 0 <= n -> window_end n 0 = 0.
Proof. unfold window_end. lia. Qed.

Lemma window_end_past n k : n <= 4096 * k -> window_end n k = n.
Proof. unfold window_end. lia. Qed.

Lemma trips_window_end l i j :
  window_end (Z.of_nat (length l)) i = window_end (Z.of_nat (length l)) j ->
  trips l i -> trips l j.
Proof. unfold trips, windows. intros ->. auto. Qed.

Lemma trips_0 l k : window_end (Z.of_nat (length l)) k = 0 -> ~ trips l k.
Proof.
  unfold trips, windows. intros ->. simpl firstn. simpl control_count.
  rewrite Z.div_0_l by lia. lia.
Qed.

Section ScanSpec.
Context {U : uchardet}.
Variable fp : read_file_mapping.
Hypothesis Hrel : reliable fp.
Hypothesis Hsize : size fp < 2 ^ 64.

(** The bytes processed when the loop head is reached after [k] windows. *)
#[local] Abbreviation prefix k := (windows (contents fp) k).

Lemma prefix_length k :
  0 <= k -> Z.of_nat (length (prefix k)) = window_end (size fp) k.
Proof.
  intros Hk. unfold windows. rewrite length_firstn.
  unfold window_end, size. lia.
Qed.

Lemma prefix_past k : size fp <= 4096 * k -> prefix k = contents fp.
Proof.
  intros H. unfold windows. fold (size fp).
  rewrite window_end_past by assumption.
  unfold size. rewrite Nat2Z.id. apply firstn_all.
Qed.

Lemma prefix_succ k :
  0 <= k -> 4096 * k < size fp ->
  prefix (k + 1)
  = prefix k ++ slice (contents fp) (4096 * k) (Z.min 4096 (size fp - 4096 * k)).
Proof.
  intros Hk Hlt. unfold windows. fold (size fp).
  replace (window_end (size fp) (k + 1))
    with (4096 * k + Z.min 4096 (size fp - 4096 * k))
    by (unfold window_end; lia).
  rewrite firstn_slice by lia.
  f_equal. f_equal. f_equal. unfold window_end. lia.
Qed.

Lemma trips_iff k :
  0 <= k ->
  (binaryish (single_window (prefix k))
     >? offset (single_window (prefix k)) / 8) = true
  <-> trips (contents fp) k.
Proof.
  intros Hk.
  assert (Hlen := prefix_length k Hk).
  assert (window_end (size fp) k <= size fp) by (unfold window_end; lia).
  rewrite single_window_binaryish, single_window_offset by lia.
  rewrite Hlen. unfold trips. fold (size fp).
  rewrite Z.gtb_gt. reflexivity.
Qed.

Lemma scan_spec : forall fuel k d st log,
  0 <= k ->
  st = single_window (prefix k) ->
  (0 < fuel)%nat ->
  size fp - 4096 * k <= 4096 * (Z.of_nat fuel - 1) ->
  (forall i, 1 <= i <= k -> ~ trips (contents fp) i) ->
  exists evs r,
    scan fuel fp d st log = (log ++ evs, Ok r)
    /\ match r with
       | Binary st' _ =>
           exists j, k < j /\ 4096 * (j - 1) < size fp
             /\ st' = single_window (prefix j)
             /\ trips (contents fp) j
             /\ (forall i, 1 <= i < j -> ~ trips (contents fp) i)
             /\ Forall (fun ev => ev_ok ev = true
                          /\ ev_offset ev + ev_length ev <= window_end (size fp) j) evs
       | Scanned st' _ =>
           st' = single_window (contents fp)
           /\ (forall i, 1 <= i -> ~ trips (contents fp) i)
           /\ Forall (fun ev => ev_ok ev = true) evs
       end.
Proof.
  induction fuel as [|fuel IH]; intros k d st log Hk Hst Hfuel Hbound Hno; [lia|].
  assert (Hoff : offset st = window_end (size fp) k).
  { subst st. rewrite single_window_offset; rewrite prefix_length by lia;
      unfold window_end; lia. }
  cbn [scan]. rewrite Hoff.
  destruct (Z.ltb_spec (window_end (size fp) k) (size fp)) as [Hlt|Hge].
  - assert (Hk' : 4096 * k < size fp) by (unfold window_end in Hlt; lia).
    assert (Hwe : window_end (size fp) k = 4096 * k) by (unfold window_end; lia).
    rewrite Hwe. unfold bind.
    rewrite read_ok by (try assumption; lia).
    set (len := Z.min 4096 (size fp - 4096 * k)).
    set (buf := slice (contents fp) (4096 * k) len).
    assert (Hst' : window_step st buf len = single_window (prefix (k + 1))).
    { rewrite prefix_succ by lia. rewrite single_window_app. subst st.
      f_equal. fold len. fold buf. symmetry. apply slice_length; unfold size in *; lia. }
    rewrite Hst'.
    destruct (binaryish (single_window (prefix (k + 1)))
              >? offset (single_window (prefix (k + 1))) / 8) eqn:Htrip.
    + exists [ReadEvent (4096 * k) len true]. eexists. split; [reflexivity|].
      exists (k + 1). repeat split; try lia.
      * apply trips_iff; [lia | exact Htrip].
      * intros i Hi. apply Hno. lia.
      * constructor; [|constructor]. cbn [ev_ok ev_offset ev_length]. split; [reflexivity|].
        unfold window_end, len. lia.
    + destruct fuel as [|fuel']; [lia|].
      destruct (IH (k + 1) (uchardet_handle_data d buf)
                  (single_window (prefix (k + 1)))
                  (log ++ [ReadEvent (4096 * k) len true]))
        as (evs & r & Hscan & Hr); try lia; try reflexivity.
      { intros i Hi. destruct (Z.eq_dec i (k + 1)) as [->|Hne].
        - intros Ht. apply trips_iff in Ht; [congruence | lia].
        - apply Hno. lia. }
      exists (ReadEvent (4096 * k) len true :: evs), r. split.
      { rewrite Hscan. rewrite <- app_assoc. reflexivity. }
      destruct r as [st' d' | st' d'].
      * destruct Hr as (j & Hj1 & Hj2 & Hj3 & Hj4 & Hj5 & Hj6).
        exists j. repeat split; try assumption; try lia.
        constructor; [|exact Hj6]. cbn [ev_ok ev_offset ev_length]. split; [reflexivity|].
        unfold window_end, len. lia.
      * destruct Hr as (Hr1 & Hr2 & Hr3). repeat split; try assumption.
        constructor; [reflexivity | exact Hr3].
  - assert (Hpast : size fp <= 4096 * k) by (unfold window_end in Hge; lia).
    exists [], (Scanned st d). split; [unfold ret; now rewrite app_nil_r|].
    split; [|split; [|constructor]].
    + subst st. now rewrite prefix_past.
    + intros i Hi.
      destruct (Z.le_gt_cases i k) as [Hle|Hgt]; [apply Hno; lia|].
      destruct (Z.eq_dec k 0) as [->|Hk0].
      * apply trips_0. unfold size in *. unfold window_end. lia.
      * intros Ht. apply (Hno k); [lia|].
        revert Ht. apply trips_window_end.
        unfold size in *. unfold window_end. lia.
Qed.

End ScanSpec.

(** ** Failures of the byte source *)

Lemma propagates_ret {A} (a : A) : propagates (ret a).
Proof.
  intros log. exists []. simpl. rewrite app_nil_r. split; [reflexivity|].
  intros H. inversion H.
Qed.

Lemma propagates_raise {A} e : propagates (@raise A e).
Proof.
  intros log. exists []. simpl. rewrite app_nil_r. split; [reflexivity|].
  intros H. inversion H.
Qed.

Lemma propagates_read fp off len : propagates (read fp off len).
Proof.
  intros log. unfold read. eexists. split; [reflexivity|].
  cbn [snd]. intros H.
  inversion H as [ev l Hev | ev l Hev]; subst; [|inversion Hev].
  unfold failed in Hev. cbn [ev_ok] in Hev. rewrite Hev. reflexivity.
Qed.

Lemma propagates_bind {A B} (m : io A) (k : A -> io B) :
  propagates m -> (forall a, propagates (k a)) -> propagates (bind m k).
Proof.
  intros Hm Hk log. unfold bind.
  destruct (Hm log) as (evs1 & Hlog1 & Hfail1).
  destruct (m log) as [log1 [a|e]]; cbn [fst snd] in *; subst log1.
  - destruct (Hk a (log ++ evs1)) as (evs2 & Hlog2 & Hfail2).
    exists (evs1 ++ evs2). rewrite app_assoc. split; [exact Hlog2|].
    intros H. apply Exists_app in H as [H|H].
    + specialize (Hfail1 H). discriminate.
    + exact (Hfail2 H).
  - exists evs1. split; [reflexivity|].
    intros H. specialize (Hfail1 H). congruence.
Qed.

Lemma propagates_open fs file : propagates (open fs file).
Proof.
  unfold open. destruct (fs file); [apply propagates_ret | apply propagates_raise].
Qed.

Lemma propagates_scan {U : uchardet} fp : forall fuel d st,
  propagates (scan fuel fp d st).
Proof.
  induction fuel as [|fuel IH]; intros d st; cbn [scan].
  - apply propagates_raise.
  - destruct (offset st <? size fp); [|apply propagates_ret].
    apply propagates_bind; [apply propagates_read|].
    intros buf. cbv zeta.
    destruct (binaryish _ >? _); [apply propagates_ret | apply IH].
Qed.

Lemma propagates_detect_uchardet {U : uchardet} fp :
  propagates (detect_uchardet fp).
Proof.
  unfold detect_uchardet.
  apply propagates_bind; [apply propagates_scan|].
  intros [st d|st d]; [apply propagates_ret|].
  destruct (final_utf8_errors st <? 5); apply propagates_ret.
Qed.

Lemma propagates_detect_plain fp : propagates (detect_plain fp).
Proof.
  unfold detect_plain.
  apply propagates_bind; [apply propagates_read|].
  intros buf. cbv zeta.
  destruct (_ >? _); apply propagates_ret.
Qed.

Lemma propagates_Detect b fs file : propagates (Detect b fs file).
Proof.
  unfold Detect.
  apply propagates_bind; [apply propagates_open|]. intros fp.
  apply propagates_bind.
  - destruct (size fp >=? 4); [|apply propagates_ret].
    apply propagates_bind; [apply propagates_read|].
    intros header. apply propagates_ret.
  - intros [label|]; [apply propagates_ret|].
    destruct (size fp >? 100 * 1024 * 1024); [apply propagates_ret|].
    destruct b as [U|];
      [apply propagates_detect_uchardet | apply propagates_detect_plain].
Qed.

(** C9. If the file cannot be opened, or if any read that [Detect]
    issues fails, the call ends in the error [IOError]; in particular
    it returns no label. *)
Theorem Detect_io_failure b fs file log log' r :
  Detect b fs file log = (log', r) ->
  fs file = None
  \/ (exists ev, In ev (skipn (length log) log') /\ ev_ok ev = false) ->
  r = Fail IOError /\ forall label, r <> Ok label.
Proof.
  intros Hrun Hcause.
  assert (r = Fail IOError) as ->; [|split; [reflexivity | discriminate]].
  destruct Hcause as [Hnone | (ev & Hin & Hev)].
  - unfold Detect, bind, open in Hrun. rewrite Hnone in Hrun.
    cbn in Hrun. congruence.
  - destruct (propagates_Detect b fs file log) as (evs & Hlog & Hfail).
    rewrite Hrun in Hlog, Hfail. cbn [fst snd] in *. subst log'.
    rewrite skipn_app, skipn_all, Nat.sub_diag in Hin. cbn in Hin.
    apply Hfail, Exists_exists. exists ev. split; assumption.
Qed.

(** ** The scan of a whole file *)

Lemma single_window_nil : single_window [] = initial_state.
Proof. reflexivity. Qed.

Lemma scan_fuel_enough fp :
  size fp - 4096 * 0 <= 4096 * (Z.of_nat (scan_fuel fp) - 1).
Proof.
  unfold scan_fuel.
  assert (0 <= size fp) by (unfold size; lia).
  assert (0 <= size fp / 4096) by (apply Z.div_pos; lia).
  rewrite Nat2Z.inj_add, Z2Nat.id by lia.
  pose proof (Z.mul_succ_div_gt (size fp) 4096 ltac:(lia)). lia.
Qed.

Lemma window_end_mono n j k : j <= k -> window_end n j <= window_end n k.
Proof. unfold window_end. lia. Qed.

Lemma control_count_firstn n l : control_count (firstn n l) <= control_count l.
Proof.
  rewrite <- (firstn_skipn n l) at 2. rewrite control_count_app.
  pose proof (control_count_range (skipn n l)). lia.
Qed.

Lemma clean_never_trips l k : 0 <= k -> control_count l = 0 -> ~ trips l k.
Proof.
  intros Hk Hclean. unfold trips, windows.
  pose proof (control_count_firstn
                (Z.to_nat (window_end (Z.of_nat (length l)) k)) l).
  assert (Hpos : 0 <= window_end (Z.of_nat (length l)) k)
    by (unfold window_end; lia).
  pose proof (Z.div_pos _ 8 Hpos ltac:(lia)). lia.
Qed.

Section WholeScan.
Context {U : uchardet}.
Variable fp : read_file_mapping.
Hypothesis Hrel : reliable fp.
Hypothesis Hsize : size fp < 2 ^ 64.

(** If the binary test succeeds after some window, the scan stops with
    [return "binary"] no later than that window, having read nothing
    beyond it. *)
Lemma scan_trips k log :
  1 <= k -> trips (contents fp) k ->
  exists evs st d,
    scan (scan_fuel fp) fp uchardet_new initial_state log
    = (log ++ evs, Ok (Binary st d))
    /\ Forall (fun ev => ev_ok ev = true
                 /\ ev_offset ev + ev_length ev <= window_end (size fp) k) evs.
Proof.
  intros Hk Htrip.
  destruct (scan_spec fp Hrel Hsize (scan_fuel fp) 0 uchardet_new
              initial_state log)
    as (evs & r & Hscan & Hr); try lia.
  - unfold windows. rewrite window_end_0 by lia. reflexivity.
  - unfold scan_fuel. lia.
  - apply scan_fuel_enough.
  - exists evs. destruct r as [st d|st d].
    + exists st, d. split; [exact Hscan|].
      destruct Hr as (j & _ & _ & _ & _ & Hfirst & Hevs).
      assert (j <= k).
      { destruct (Z.le_gt_cases j k); [assumption|].
        exfalso. apply (Hfirst k); [lia | assumption]. }
      eapply Forall_impl; [|exact Hevs]. cbv beta. intros ev [Hok Hle].
      split; [exact Hok|].
      pose proof (window_end_mono (size fp) j k). lia.
    + destruct Hr as (_ & Hnone & _). exfalso.
      apply (Hnone k); [lia | assumption].
Qed.

(** If the binary test never succeeds, the scan reaches the end of the
    file in the state that one window holding the whole file gives. *)
Lemma scan_completes log :
  (forall k, 1 <= k -> ~ trips (contents fp) k) ->
  exists evs d,
    scan (scan_fuel fp) fp uchardet_new initial_state log
    = (log ++ evs, Ok (Scanned (single_window (contents fp)) d))
    /\ Forall (fun ev => ev_ok ev = true) evs.
Proof.
  intros Hnone.
  destruct (scan_spec fp Hrel Hsize (scan_fuel fp) 0 uchardet_new
              initial_state log)
    as (evs & r & Hscan & Hr); try lia.
  - unfold windows. rewrite window_end_0 by lia. reflexivity.
  - unfold scan_fuel. lia.
  - apply scan_fuel_enough.
  - exists evs. destruct r as [st d|st d].
    + destruct Hr as (j & Hj & _ & _ & Htrip & _). exfalso.
      apply (Hnone j); [lia | assumption].
    + destruct Hr as (-> & _ & Hevs). exists d. split; assumption.
Qed.

(** The scan returns, and however it ends its state is the one that a
    single window over the bytes read so far gives. *)
Lemma scan_single_window log :
  exists evs r,
    scan (scan_fuel fp) fp uchardet_new initial_state log = (log ++ evs, Ok r)
    /\ match r with
       | Binary st _ =>
           exists k, 1 <= k /\ st = single_window (windows (contents fp) k)
       | Scanned st _ => st = single_window (contents fp)
       end.
Proof.
  destruct (scan_spec fp Hrel Hsize (scan_fuel fp) 0 uchardet_new
              initial_state log)
    as (evs & r & Hscan & Hr); try lia.
  - unfold windows. rewrite window_end_0 by lia. reflexivity.
  - unfold scan_fuel. lia.
  - apply scan_fuel_enough.
  - exists evs, r. split; [exact Hscan|].
    destruct r as [st d|st d].
    + destruct Hr as (j & Hj & _ & Hst & _). exists j. split; [lia | exact Hst].
    + apply Hr.
Qed.

Lemma detect_uchardet_completes log :
  (forall k, 1 <= k -> ~ trips (contents fp) k) ->
  final_utf8_errors (single_window (contents fp)) < 5 ->
  snd (detect_uchardet fp log) = Ok "utf-8".
Proof.
  intros Hnone Herr. unfold detect_uchardet, bind.
  destruct (scan_completes log Hnone) as (evs & d & -> & _).
  replace (_ <? 5) with true by (symmetry; apply Z.ltb_lt; exact Herr).
  reflexivity.
Qed.

End WholeScan.

(** ** The magic-byte check *)

Lemma Detect_signature b fs file fp log label :
  fs file = Some fp -> reliable fp -> 4 <= size fp ->
  magic_bytes (slice (contents fp) 0 4) = Some label ->
  Detect b fs file log = (log ++ [ReadEvent 0 4 true], Ok label).
Proof.
  intros Hfs Hrel Hsz Hmagic. unfold Detect, bind, open. rewrite Hfs.
  cbn [ret]. replace (size fp >=? 4) with true by (symmetry; apply Z.geb_le; lia).
  rewrite read_ok by (try assumption; lia). cbn [ret].
  rewrite Hmagic. reflexivity.
Qed.

Lemma Detect_no_signature b fs file fp log :
  fs file = Some fp -> reliable fp -> no_signature fp ->
  Detect b fs file log = after_signature b fp (log ++ header_events fp).
Proof.
  intros Hfs Hrel Hsig. unfold Detect, bind, open, header_events. rewrite Hfs.
  cbn [ret]. destruct (Z.geb_spec (size fp) 4) as [Hge|Hlt].
  - destruct Hsig as [Hsig|Hsig]; [lia|].
    rewrite read_ok by (try assumption; lia). cbn [ret].
    rewrite Hsig. reflexivity.
  - rewrite app_nil_r. reflexivity.
Qed.

(** [strncmp] stops at a NUL of the literal: a header that starts with a
    NUL byte compares equal to the UTF-32BE literal, whatever follows. *)
Remark magic_bytes_leading_nul c1 c2 c3 :
  magic_bytes [x00; c1; c2; c3] = Some "utf-32be".
Proof. reflexivity. Qed.

Lemma slice_0_4 (c0 c1 c2 c3 : byte) rest :
  slice (c0 :: c1 :: c2 :: c3 :: rest) 0 4 = [c0; c1; c2; c3].
Proof. reflexivity. Qed.

Lemma size_cons4 fp (c0 c1 c2 c3 : byte) rest :
  contents fp = c0 :: c1 :: c2 :: c3 :: rest -> 4 <= size fp.
Proof. unfold size. intros ->. cbn [length]. lia. Qed.

(** C3. A file of at least four bytes that starts with FF FE 00 00 is
    detected as utf-32le, not as utf-16le, although the utf-16le
    comparison would succeed on the same header: the four-byte check
    comes first. *)
Theorem Detect_utf32le_before_utf16le b fs file fp rest log :
  fs file = Some fp -> reliable fp ->
  contents fp = xff :: xfe :: x00 :: x00 :: rest ->
  snd (Detect b fs file log) = Ok "utf-32le"
  /\ snd (Detect b fs file log) <> Ok "utf-16le"
  /\ strncmp (slice (contents fp) 0 4) [xff; xfe] 2 = 0.
Proof.
  intros Hfs Hrel Hc.
  rewrite (Detect_signature b fs file fp log "utf-32le" Hfs Hrel).
  - rewrite Hc. repeat split. discriminate.
  - eapply size_cons4; eassumption.
  - rewrite Hc. reflexivity.
Qed.

(** ** The build without [uchardet] *)

Lemma detect_plain_spec fp log :
  reliable fp ->
  detect_plain fp log
  = (log ++ [ReadEvent 0 (Z.min 4096 (size fp)) true],
     Ok (if control_count (firstn (Z.to_nat (Z.min 4096 (size fp))) (contents fp))
            >? Z.min 4096 (size fp) / 8
         then "binary" else "utf-8")).
Proof.
  intros Hrel. unfold detect_plain, bind.
  assert (0 <= size fp) by (unfold size; lia).
  rewrite read_ok by (try assumption; lia).
  assert (Hlen := slice_length (contents fp) 0 (Z.min 4096 (size fp))
                    ltac:(lia) ltac:(lia) ltac:(unfold size in *; lia)).
  rewrite fold_count_binaryish by lia.
  unfold slice. cbn [Z.to_nat skipn]. rewrite Z.add_0_l.
  destruct (_ >? _); reflexivity.
Qed.

(** X17. Without [uchardet], when the comparisons of the magic-byte
    check as the code makes them find nothing and the file has at most
    100 MiB, [Detect] issues one read after the header, of the first
    [min(4096, size)] bytes, and its answer is decided by the
    control-like bytes of that window alone: "binary" if there are more
    than an eighth of the window's length, else "utf-8". *)
Theorem Detect_plain_first_window fs file fp log :
  fs file = Some fp -> reliable fp -> no_signature fp ->
  size fp <= 100 * 1024 * 1024 ->
  let read_len := Z.min 4096 (size fp) in
  Detect WITHOUT_UCHARDET fs file log
  = (log ++ header_events fp ++ [ReadEvent 0 read_len true],
     Ok (if control_count (firstn (Z.to_nat read_len) (contents fp))
            >? read_len / 8
         then "binary" else "utf-8")).
Proof.
  intros Hfs Hrel Hsig Hsz read_len.
  rewrite (Detect_no_signature _ fs file fp log Hfs Hrel Hsig).
  unfold after_signature.
  rewrite gtb_false by assumption.
  rewrite detect_plain_spec by assumption.
  rewrite <- app_assoc. reflexivity.
Qed.

Lemma Detect_plain_first_window_witness :
  no_signature control_prefix_file
  /\ Detect WITHOUT_UCHARDET (one_file control_prefix_file) "a.ass" []
     = ([ReadEvent 0 4 true; ReadEvent 0 4096 true], Ok "binary").
Proof.
  assert (Hsig : no_signature control_prefix_file) by (right; reflexivity).
  split; [exact Hsig|].
  exact (Detect_plain_first_window (one_file control_prefix_file) "a.ass"
           control_prefix_file [] eq_refl (fun _ => eq_refl) Hsig
           ltac:(vm_compute; discriminate)).
Defined.

(** ** Inputs of a few bytes *)

Lemma size_contents fp l : contents fp = l -> size fp = Z.of_nat (length l).
Proof. unfold size. now intros ->. Qed.

(** A file without control-like bytes whose single-window state has
    fewer than five errors is utf-8 in both builds, once the magic-byte
    check has found nothing. *)
Lemma Detect_clean b fs file fp log :
  fs file = Some fp -> reliable fp -> no_signature fp ->
  size fp <= 100 * 1024 * 1024 ->
  control_count (contents fp) = 0 ->
  final_utf8_errors (single_window (contents fp)) < 5 ->
  snd (Detect b fs file log) = Ok "utf-8".
Proof.
  intros Hfs Hrel Hsig Hsz Hclean Herr.
  rewrite (Detect_no_signature _ fs file fp log Hfs Hrel Hsig).
  unfold after_signature. rewrite gtb_false by assumption.
  destruct b as [U|].
  - apply detect_uchardet_completes; try assumption; [lia|].
    intros k Hk. apply clean_never_trips; [lia | assumption].
  - rewrite detect_plain_spec by assumption. cbn [snd].
    rewrite gtb_false; [reflexivity|].
    pose proof (control_count_firstn (Z.to_nat (Z.min 4096 (size fp)))
                  (contents fp)).
    assert (0 <= Z.min 4096 (size fp)) by (unfold size; lia).
    pose proof (Z.div_pos (Z.min 4096 (size fp)) 8). lia.
Qed.

(** C4. A file whose first three bytes are EF BB BF is utf-8 in both
    builds, whatever follows; with exactly three bytes the magic-byte
    check does not run and the scan gives the same answer. *)
Theorem Detect_utf8_bom b fs file fp rest log :
  fs file = Some fp -> reliable fp ->
  contents fp = xef :: xbb :: xbf :: rest ->
  snd (Detect b fs file log) = Ok "utf-8".
Proof.
  intros Hfs Hrel Hc. destruct rest as [|c rest].
  - pose proof (size_contents fp _ Hc) as Hsz. cbn in Hsz.
    apply (Detect_clean b fs file fp log Hfs Hrel); try (rewrite Hc; reflexivity).
    + left. lia.
    + lia.
  - rewrite (Detect_signature b fs file fp log "utf-8" Hfs Hrel).
    + reflexivity.
    + eapply size_cons4; eassumption.
    + rewrite Hc. reflexivity.
Qed.

Lemma Detect_utf8_bom_witness :
  snd (Detect (WITH_UCHARDET latin1_detector)
         (one_file (memory_file [xef; xbb; xbf; xff; x01; x01; xc0; xff; xfe; xfd]))
         "a.ass" [])
  = Ok "utf-8"
  /\ snd (Detect WITHOUT_UCHARDET (one_file (memory_file [xef; xbb; xbf]))
           "a.ass" [])
     = Ok "utf-8".
Proof.
  split.
  - exact (Detect_utf8_bom (WITH_UCHARDET latin1_detector) _ "a.ass"
             (memory_file [xef; xbb; xbf; xff; x01; x01; xc0; xff; xfe; xfd])
             _ [] eq_refl (fun _ => eq_refl) eq_refl).
  - exact (Detect_utf8_bom WITHOUT_UCHARDET _ "a.ass"
             (memory_file [xef; xbb; xbf]) _ [] eq_refl (fun _ => eq_refl)
             eq_refl).
Defined.

(** C6. With [uchardet], on the one-byte file E2 the scan ends with no
    error and two continuation bytes pending, the check after the loop
    makes the count 1, and [Detect] answers utf-8 whatever the detector
    would have guessed. *)
Theorem Detect_truncated_lead {U : uchardet} fs file fp log :
  fs file = Some fp -> reliable fp -> contents fp = [xe2] ->
  (exists log' st d,
      scan (scan_fuel fp) fp uchardet_new initial_state log
      = (log', Ok (Scanned st d))
      /\ utf8_errors st = 0 /\ utf8_cont_bytes st = 2
      /\ final_utf8_errors st = 1)
  /\ snd (Detect (WITH_UCHARDET U) fs file log) = Ok "utf-8".
Proof.
  intros Hfs Hrel Hc.
  pose proof (size_contents fp _ Hc) as Hsz. cbn in Hsz.
  split.
  - destruct (scan_completes fp Hrel ltac:(lia) log) as (evs & d & Hscan & _).
    + intros k Hk. apply clean_never_trips; [lia | now rewrite Hc].
    + exists (log ++ evs), (single_window (contents fp)), d.
      split; [exact Hscan|]. rewrite Hc. repeat split.
  - apply (Detect_clean _ fs file fp log Hfs Hrel); try (rewrite Hc; reflexivity).
    + left. lia.
    + lia.
Qed.

Lemma Detect_truncated_lead_witness :
  snd (Detect (WITH_UCHARDET latin1_detector) (one_file (memory_file [xe2]))
         "a.ass" [])
  = Ok "utf-8".
Proof.
  exact (proj2 (@Detect_truncated_lead latin1_detector _ "a.ass"
                  (memory_file [xe2]) [] eq_refl (fun _ => eq_refl) eq_refl)).
Defined.

(** C10. A file that consists of the two bytes of a UTF-16 byte-order
    mark is utf-8 in both builds: the magic-byte check needs four bytes,
    neither byte is control-like, and the validator counts two errors. *)
Theorem Detect_bare_utf16_bom b fs file fp log :
  fs file = Some fp -> reliable fp ->
  contents fp = [xfe; xff] \/ contents fp = [xff; xfe] ->
  snd (Detect b fs file log) = Ok "utf-8"
  /\ control_count (contents fp) = 0
  /\ final_utf8_errors (single_window (contents fp)) = 2.
Proof.
  intros Hfs Hrel Hc.
  assert (Hsz : size fp = 2)
    by (destruct Hc as [Hc|Hc]; now rewrite (size_contents fp _ Hc)).
  assert (Hclean : control_count (contents fp) = 0)
    by (destruct Hc as [-> | ->]; reflexivity).
  assert (Herr : final_utf8_errors (single_window (contents fp)) = 2)
    by (destruct Hc as [-> | ->]; reflexivity).
  repeat split; try assumption.
  apply (Detect_clean b fs file fp log Hfs Hrel); try assumption.
  - left. lia.
  - lia.
  - lia.
Qed.

Lemma Detect_bare_utf16_bom_witness :
  snd (Detect (WITH_UCHARDET latin1_detector)
         (one_file (memory_file [xfe; xff])) "a.ass" [])
  = Ok "utf-8"
  /\ snd (Detect WITHOUT_UCHARDET (one_file (memory_file [xff; xfe]))
           "a.ass" [])
     = Ok "utf-8".
Proof.
  split.
  - exact (proj1 (Detect_bare_utf16_bom (WITH_UCHARDET latin1_detector) _
                    "a.ass" (memory_file [xfe; xff]) [] eq_refl
                    (fun _ => eq_refl) (or_introl eq_refl))).
  - exact (proj1 (Detect_bare_utf16_bom WITHOUT_UCHARDET _ "a.ass"
                    (memory_file [xff; xfe]) [] eq_refl (fun _ => eq_refl)
                    (or_intror eq_refl))).
Defined.

(** ** ASCII input *)

Lemma utf8_step_ascii errors c :
  uchar c < 128 -> utf8_step errors 0 c = (errors, 0).
Proof.
  intros H. unfold utf8_step. rewrite (countl_one_ascii c H). reflexivity.
Qed.

Lemma fold_byte_step_ascii l : forall st,
  Forall (fun c => uchar c < 128) l ->
  utf8_cont_bytes st = 0 ->
  utf8_errors (fold_left byte_step l st) = utf8_errors st
  /\ utf8_cont_bytes (fold_left byte_step l st) = 0.
Proof.
  induction l as [|c l IH]; intros st Hascii Hcont; cbn [fold_left].
  - split; [reflexivity | assumption].
  - inversion Hascii as [|? ? Hc Hl]; subst.
    destruct (IH (byte_step st c) Hl) as [He Hz].
    + unfold byte_step. rewrite Hcont, utf8_step_ascii by assumption.
      reflexivity.
    + split; [|exact Hz]. rewrite He. unfold byte_step.
      rewrite Hcont, utf8_step_ascii by assumption. reflexivity.
Qed.

Lemma final_utf8_errors_ascii l :
  Forall (fun c => uchar c < 128) l ->
  final_utf8_errors (single_window l) = 0.
Proof.
  intros Hascii. unfold final_utf8_errors, single_window, window_step.
  destruct (fold_byte_step_ascii l (advance initial_state (Z.of_nat (length l)))
              Hascii eq_refl) as [He Hc].
  rewrite Hc, He. reflexivity.
Qed.

(** The magic-byte check finds nothing on an all-ASCII file whose first
    byte is not NUL. *)
Lemma ascii_no_signature fp :
  Forall (fun c => uchar c < 128) (contents fp) ->
  (forall rest, contents fp <> x00 :: rest) ->
  no_signature fp.
Proof.
  intros Hascii Hnul. unfold no_signature, size.
  destruct (contents fp) as [|c0 [|c1 [|c2 [|c3 rest]]]] eqn:Hc;
    try (left; cbn; lia).
  right. rewrite slice_0_4.
  assert (H0 : uchar c0 <> 0).
  { intros Hz. apply (Hnul (c1 :: c2 :: c3 :: rest)). f_equal.
    destruct c0; try reflexivity; vm_compute in Hz; discriminate. }
  inversion Hascii as [|? ? A0 Hascii1]; subst.
  inversion Hascii1 as [|? ? A1 Hascii2]; subst.
  inversion Hascii2 as [|? ? A2 _]; subst.
  pose proof (uchar_range c0). pose proof (uchar_range c1).
  pose proof (uchar_range c2).
  unfold magic_bytes, strncmp. cbn [hd tl].
  change (uchar xef) with 239. change (uchar x00) with 0.
  change (uchar xff) with 255. change (uchar xfe) with 254.
  change (uchar x1a) with 26. change (uchar x45) with 69.
  change (uchar xdf) with 223.
  repeat match goal with
         | |- context [uchar ?c =? ?b] =>
             destruct (Z.eqb_spec (uchar c) b); cbn [negb]; try lia
         end;
    repeat match goal with
           | |- context [?a - ?b =? 0] =>
               destruct (Z.eqb_spec (a - b) 0); try lia
           end;
    reflexivity.
Qed.

(** C2, as the code has it. An all-ASCII file of at most 100 MiB on
    which the magic-byte check finds nothing, and whose control-like
    bytes never exceed an eighth of the bytes processed at the end of a
    window, is utf-8 in both builds. *)
Theorem Detect_ascii b fs file fp log :
  fs file = Some fp -> reliable fp ->
  Forall (fun c => uchar c < 128) (contents fp) ->
  no_signature fp ->
  size fp <= 100 * 1024 * 1024 ->
  (forall k, 1 <= k -> ~ trips (contents fp) k) ->
  snd (Detect b fs file log) = Ok "utf-8".
Proof.
  intros Hfs Hrel Hascii Hsig Hsz Hnone.
  rewrite (Detect_no_signature _ fs file fp log Hfs Hrel Hsig).
  unfold after_signature. rewrite gtb_false by assumption.
  destruct b as [U|].
  - apply detect_uchardet_completes; try assumption; [lia|].
    rewrite final_utf8_errors_ascii by assumption. lia.
  - rewrite detect_plain_spec by assumption. cbn [snd].
    rewrite gtb_false; [reflexivity|].
    specialize (Hnone 1 ltac:(lia)). unfold trips, windows in Hnone.
    fold (size fp) in Hnone. unfold window_end in Hnone.
    rewrite Z.mul_1_r in Hnone. lia.
Qed.

Lemma never_trips_by_cases l n :
  (forall k, 1 <= k < Z.of_nat n -> ~ trips l k) ->
  Z.of_nat (length l) <= 4096 * Z.of_nat n ->
  ~ trips l (Z.of_nat n) ->
  forall k, 1 <= k -> ~ trips l k.
Proof.
  intros Hbelow Hlen Hlast k Hk.
  destruct (Z.lt_ge_cases k (Z.of_nat n)) as [Hlt|Hge]; [apply Hbelow; lia|].
  intros Ht. apply Hlast. revert Ht. apply trips_window_end.
  unfold window_end. lia.
Qed.

Lemma Detect_ascii_witness :
  Forall (fun c => uchar c < 128) (contents ascii_file)
  /\ snd (Detect (WITH_UCHARDET latin1_detector) (one_file ascii_file)
           "a.ass" [])
     = Ok "utf-8".
Proof.
  assert (Hascii : Forall (fun c => uchar c < 128) (contents ascii_file)).
  { apply Forall_forall. intros c Hin.
    apply in_app_or in Hin as [Hin|Hin].
    - apply repeat_spec in Hin. subst c. reflexivity.
    - repeat (destruct Hin as [<-|Hin]; [reflexivity|]). destruct Hin. }
  split; [exact Hascii|].
  apply (Detect_ascii (WITH_UCHARDET latin1_detector) _ "a.ass" ascii_file []
           eq_refl (fun _ => eq_refl) Hascii).
  - right. reflexivity.
  - vm_compute. discriminate.
  - apply (never_trips_by_cases _ 2).
    + intros k Hk. assert (k = 1) as -> by lia. vm_compute. discriminate.
    + vm_compute. discriminate.
    + vm_compute. discriminate.
Defined.

(** C2 as stated fails: a one-byte file holding 01 is all ASCII and too
    short for the magic-byte check, and is binary. *)
Lemma Detect_ascii_counterexample :
  ~ (forall b fs file fp log,
        fs file = Some fp -> reliable fp ->
        Forall (fun c => uchar c < 128) (contents fp) ->
        no_signature fp ->
        snd (Detect b fs file log) = Ok "utf-8").
Proof.
  intros H.
  specialize (H (WITH_UCHARDET latin1_detector) (one_file (memory_file [x01]))
                "a.ass" (memory_file [x01]) [] eq_refl (fun _ => eq_refl)).
  assert (Hascii : Forall (fun c => uchar c < 128) [x01])
    by (constructor; [reflexivity | constructor]).
  specialize (H Hascii (or_introl eq_refl)).
  vm_compute in H. discriminate.
Qed.

(** ** The binary short-circuit *)

(** X16. With [uchardet], when the comparisons of the magic-byte check
    as the code makes them find nothing and the file has at most
    100 MiB: if after the [k]-th window the control-like bytes processed
    exceed an eighth of [offset], [Detect] answers "binary", and every
    read it issued ends at or before the end of that window, whatever
    the bytes after it are. *)
Theorem Detect_binary_short_circuit {U : uchardet} fs file fp k log :
  fs file = Some fp -> reliable fp -> no_signature fp ->
  size fp <= 100 * 1024 * 1024 ->
  1 <= k -> trips (contents fp) k ->
  exists evs,
    Detect (WITH_UCHARDET U) fs file log = (log ++ evs, Ok "binary")
    /\ Forall (fun ev => ev_ok ev = true
                 /\ ev_offset ev + ev_length ev <= window_end (size fp) k) evs.
Proof.
  intros Hfs Hrel Hsig Hsz Hk Htrip.
  rewrite (Detect_no_signature _ fs file fp log Hfs Hrel Hsig).
  unfold after_signature. rewrite gtb_false by assumption.
  unfold detect_uchardet, bind.
  destruct (scan_trips fp Hrel ltac:(lia) k (log ++ header_events fp) Hk Htrip)
    as (evs & st & d & -> & Hevs).
  exists (header_events fp ++ evs). rewrite app_assoc. split; [reflexivity|].
  apply Forall_app. split; [|exact Hevs].
  unfold header_events. destruct (Z.geb_spec (size fp) 4); constructor;
    [|constructor].
  cbn [ev_ok ev_offset ev_length]. split; [reflexivity|].
  unfold window_end. lia.
Qed.

Lemma Detect_binary_short_circuit_witness :
  trips (contents control_prefix_file) 1
  /\ exists evs,
       Detect (WITH_UCHARDET latin1_detector) (one_file control_prefix_file)
         "a.ass" []
       = ([] ++ evs, Ok "binary")
       /\ Forall (fun ev => ev_ok ev = true
                    /\ ev_offset ev + ev_length ev
                       <= window_end (size control_prefix_file) 1) evs.
Proof.
  assert (Htrip : trips (contents control_prefix_file) 1) by reflexivity.
  split; [exact Htrip|].
  exact (@Detect_binary_short_circuit latin1_detector
           (one_file control_prefix_file) "a.ass" control_prefix_file 1 []
           eq_refl (fun _ => eq_refl) (or_intror eq_refl)
           ltac:(vm_compute; discriminate) ltac:(lia) Htrip).
Defined.

(** ** Sequences that straddle a window boundary *)

Lemma byte_step_lead st c :
  2 <= countl_one c <= 4 ->
  utf8_errors (byte_step st c) = final_utf8_errors st
  /\ utf8_cont_bytes (byte_step st c) = countl_one c - 1.
Proof.
  intros Hl. unfold byte_step, utf8_step, final_utf8_errors.
  replace (countl_one c =? 1) with false by (symmetry; apply Z.eqb_neq; lia).
  rewrite andb_false_r.
  destruct (negb (utf8_cont_bytes st =? 0));
    rewrite gtb_false, gtb_true by lia; split; reflexivity.
Qed.

Lemma byte_step_continuation st c :
  utf8_cont_bytes st <> 0 -> countl_one c = 1 ->
  utf8_errors (byte_step st c) = utf8_errors st
  /\ utf8_cont_bytes (byte_step st c) = utf8_cont_bytes st - 1.
Proof.
  intros Hc Hl. unfold byte_step, utf8_step. rewrite Hl.
  replace (utf8_cont_bytes st =? 0) with false by (symmetry; apply Z.eqb_neq; lia).
  split; reflexivity.
Qed.

Lemma fold_byte_step_continuations conts : forall st,
  Forall (fun c => countl_one c = 1) conts ->
  utf8_cont_bytes st = Z.of_nat (length conts) ->
  utf8_errors (fold_left byte_step conts st) = utf8_errors st
  /\ utf8_cont_bytes (fold_left byte_step conts st) = 0.
Proof.
  induction conts as [|c conts IH]; intros st Hall Hlen; cbn [fold_left].
  - split; [reflexivity | exact Hlen].
  - inversion Hall as [|? ? Hc Hrest]; subst. cbn [length] in Hlen.
    destruct (byte_step_continuation st c ltac:(lia) Hc) as [He Hn].
    destruct (IH (byte_step st c) Hrest ltac:(lia)) as [He' Hn'].
    split; [congruence | exact Hn'].
Qed.




(** ** The invariant of the detection state *)

Lemma utf8_step_bounds errors cont c :
  0 <= errors -> errors + 2 < 2 ^ 64 -> 0 <= cont <= 3 ->
  errors <= fst (utf8_step errors cont c) <= errors + 2
  /\ 0 <= snd (utf8_step errors cont c) <= 3.
Proof.
  intros He Hno Hc. pose proof (countl_one_range c) as Hl.
  unfold utf8_step.
  destruct (Z.eqb_spec cont 0) as [Hz|Hnz]; cbn [negb andb];
    destruct (Z.eqb_spec (countl_one c) 1) as [H1|H1]; cbn [fst snd];
    try (split; lia);
    destruct (Z.gtb_spec (countl_one c) 4); cbn [fst snd];
    try (destruct (Z.gtb_spec (countl_one c) 1); cbn [fst snd]);
    rewrite ?(u64_small (errors + 1)) by lia;
    rewrite ?(u64_small (errors + 1 + 1)) by lia;
    split; lia.
Qed.

Lemma count_binaryish_bounds n c :
  0 <= n -> n + 1 < 2 ^ 64 -> n <= count_binaryish n c <= n + 1.
Proof.
  intros Hn Hno. unfold count_binaryish.
  destruct (control_like c); [rewrite u64_small by lia|]; lia.
Qed.

Lemma byte_step_fields st c :
  offset (byte_step st c) = offset st
  /\ binaryish (byte_step st c) = count_binaryish (binaryish st) c
  /\ utf8_errors (byte_step st c)
     = fst (utf8_step (utf8_errors st) (utf8_cont_bytes st) c)
  /\ utf8_cont_bytes (byte_step st c)
     = snd (utf8_step (utf8_errors st) (utf8_cont_bytes st) c).
Proof.
  unfold byte_step.
  destruct (utf8_step (utf8_errors st) (utf8_cont_bytes st) c).
  repeat split.
Qed.

Section Invariant.
Variable fp : read_file_mapping.
Hypothesis Hsize : size fp <= 100 * 1024 * 1024.

Lemma step_invariant c c' :
  state_invariant fp c -> step fp c c' ->
  state_invariant fp c' /\ utf8_errors (snd c) <= utf8_errors (snd c').
Proof.
  intros Hinv Hstep. unfold state_invariant in *.
  destruct Hstep as [st Hlt read_len | st b rest | st Hle];
    cbn [fst snd unprocessed] in *.
  - destruct Hinv as (Hdone & Hoff & Hbin & Hcont & Herr).
    assert (Hlen : Z.of_nat (length (slice (contents fp) (offset st) read_len))
                   = read_len)
      by (apply slice_length; unfold size in *; lia).
    rewrite Hlen. unfold advance; cbn [offset binaryish utf8_errors utf8_cont_bytes].
    rewrite u64_small by lia. lia.
  - destruct Hinv as (Hdone & Hoff & Hbin & Hcont & Herr).
    cbn [length] in *.
    destruct (byte_step_fields st b) as (-> & -> & -> & ->).
    pose proof (count_binaryish_bounds (binaryish st) b ltac:(lia) ltac:(lia)).
    pose proof (utf8_step_bounds (utf8_errors st) (utf8_cont_bytes st) b
                  ltac:(lia) ltac:(lia) Hcont).
    lia.
  - split; [exact Hinv | lia].
Qed.

Lemma initial_invariant : state_invariant fp (LoopHead, initial_state).
Proof.
  unfold state_invariant; cbn. unfold size. lia.
Qed.

Lemma steps_invariant c c' :
  state_invariant fp c -> steps fp c c' ->
  state_invariant fp c' /\ utf8_errors (snd c) <= utf8_errors (snd c').
Proof.
  intros Hinv Hsteps. induction Hsteps as [c | c1 c2 c3 Hsteps IH Hstep].
  - split; [assumption | lia].
  - destruct (IH Hinv) as [Hinv2 Hle].
    destruct (step_invariant c2 c3 Hinv2 Hstep) as [Hinv3 Hle'].
    split; [assumption | lia].
Qed.

End Invariant.

(** C8. With [uchardet], at every point that the scan of a file of at
    most 100 MiB reaches: [binaryish <= offset], the pending
    continuation count lies in [0, 3], and [utf8_errors] is no larger
    than at any point reached later. *)
Theorem scan_state_invariant fp c :
  size fp <= 100 * 1024 * 1024 ->
  reachable fp c ->
  binaryish (snd c) <= offset (snd c)
  /\ 0 <= utf8_cont_bytes (snd c) <= 3
  /\ forall c', steps fp c c' -> utf8_errors (snd c) <= utf8_errors (snd c').
Proof.
  intros Hsz Hreach.
  destruct (steps_invariant fp Hsz _ _ (initial_invariant fp) Hreach)
    as [Hinv _].
  assert (Hun : 0 <= unprocessed (fst c))
    by (destruct (fst c); cbn; lia).
  pose proof Hinv as (Hdone & Hoff & Hbin & Hcont & Herr).
  cbv zeta in *. repeat split; try lia.
  intros c' Hsteps. apply (steps_invariant fp Hsz c c' Hinv Hsteps).
Qed.

Lemma scan_state_invariant_witness :
  reachable (memory_file [xe2; x82; x01])
    (InWindow [x01],
     byte_step (byte_step (advance initial_state 3) xe2) x82)
  /\ binaryish (byte_step (byte_step (advance initial_state 3) xe2) x82)
     <= offset (byte_step (byte_step (advance initial_state 3) xe2) x82).
Proof.
  assert (Hreach : reachable (memory_file [xe2; x82; x01])
                     (InWindow [x01],
                      byte_step (byte_step (advance initial_state 3) xe2) x82)).
  { unfold reachable.
    eapply steps_step; [eapply steps_step; [eapply steps_step|]|].
    - apply steps_refl.
    - exact (step_window (memory_file [xe2; x82; x01]) initial_state eq_refl).
    - exact (step_byte _ (advance initial_state 3) xe2 [x82; x01]).
    - exact (step_byte _ (byte_step (advance initial_state 3) xe2) x82 [x01]). }
  split; [exact Hreach|].
  exact (proj1 (scan_state_invariant (memory_file [xe2; x82; x01]) _
                  ltac:(vm_compute; discriminate) Hreach)).
Defined.

(** The transition system covers the loop: whatever state [scan] ends
    in was reached through its steps. *)
Lemma steps_bytes fp c0 buf : forall st,
  steps fp c0 (InWindow buf, st) ->
  steps fp c0 (InWindow [], fold_left byte_step buf st).
Proof.
  induction buf as [|c buf IH]; intros st Hsteps; cbn [fold_left].
  - exact Hsteps.
  - apply IH. eapply steps_step; [exact Hsteps | apply step_byte].
Qed.

Lemma read_inv fp off len log log' buf :
  read fp off len log = (log', Ok buf) ->
  buf = slice (contents fp) off len.
Proof.
  unfold read. destruct (_ && _); intros H; inversion H. reflexivity.
Qed.

Lemma scan_reachable {U : uchardet} fp : forall fuel d st log log' r,
  scan fuel fp d st log = (log', Ok r) ->
  reachable fp (LoopHead, st) ->
  match r with
  | Binary st' _ =>
      reachable fp (InWindow [], st') /\ binaryish st' > offset st' / 8
  | Scanned st' _ => reachable fp (LoopHead, st')
  end.
Proof.
  induction fuel as [|fuel IH]; intros d st log log' r Hscan Hreach;
    cbn [scan] in Hscan; [discriminate|].
  destruct (Z.ltb_spec (offset st) (size fp)) as [Hlt|Hge].
  - unfold bind in Hscan.
    destruct (read fp (offset st) (Z.min 4096 (size fp - offset st)) log)
      as [log1 [buf|e]] eqn:Hread; [|discriminate].
    apply read_inv in Hread. subst buf.
    set (len := Z.min 4096 (size fp - offset st)) in *.
    set (buf := slice (contents fp) (offset st) len) in *.
    assert (Hwin : reachable fp (InWindow [], window_step st buf len)).
    { unfold window_step. apply steps_bytes.
      eapply steps_step; [exact Hreach|].
      exact (step_window fp st Hlt). }
    destruct (Z.gtb_spec (binaryish (window_step st buf len))
                (offset (window_step st buf len) / 8)) as [Hgt|Hle].
    + inversion Hscan; subst. split; [exact Hwin | lia].
    + apply (IH _ _ _ _ _ Hscan).
      eapply steps_step; [exact Hwin | apply step_next; exact Hle].
  - inversion Hscan; subst. exact Hreach.
Qed.

(** ** Termination of the scan *)

Lemma scan_terminates {U : uchardet} fp : forall fuel d st log,
  size fp < 2 ^ 64 -> 0 <= offset st ->
  (0 < fuel)%nat ->
  size fp - offset st <= 4096 * (Z.of_nat fuel - 1) ->
  snd (scan fuel fp d st log) <> Fail FuelExhausted.
Proof.
  induction fuel as [|fuel IH]; intros d st log Hsz Hoff Hfuel Hbound; [lia|].
  cbn [scan].
  destruct (Z.ltb_spec (offset st) (size fp)) as [Hlt|Hge]; [|discriminate].
  unfold bind, read.
  destruct (_ && _); cbn [snd]; [|discriminate].
  set (len := Z.min 4096 (size fp - offset st)).
  set (buf := slice (contents fp) (offset st) len).
  destruct (_ >? _); [discriminate|].
  assert (Hoff' : offset (window_step st buf len) = offset st + len).
  { unfold window_step. rewrite fold_byte_step_offset.
    cbn [advance offset]. apply u64_small. lia. }
  apply IH; rewrite ?Hoff'; lia.
Qed.

(** [Detect] always returns: with a label, or with the failure of the
    byte source. *)
Lemma Detect_terminates b fs file log :
  snd (Detect b fs file log) <> Fail FuelExhausted.
Proof.
  unfold Detect, bind, open.
  destruct (fs file) as [fp|]; cbn [ret raise]; [|discriminate].
  assert (Htail : forall log1,
             snd (after_signature b fp log1) <> Fail FuelExhausted).
  { intros log1. unfold after_signature.
    destruct (Z.gtb_spec (size fp) (100 * 1024 * 1024)); [discriminate|].
    destruct b as [U|].
    - unfold detect_uchardet, bind.
      pose proof (scan_terminates fp (scan_fuel fp) uchardet_new initial_state
                    log1 ltac:(lia) ltac:(cbn; lia)
                    ltac:(unfold scan_fuel; lia)
                    ltac:(pose proof (scan_fuel_enough fp); cbn [offset initial_state]; lia))
        as Hscan.
      destruct (scan _ _ _ _ _) as [log2 [[st d|st d]|e]]; cbn [snd] in *.
      + discriminate.
      + destruct (_ <? 5); discriminate.
      + intros Heq. apply Hscan. congruence.
    - unfold detect_plain, bind, read.
      destruct (_ && _); [|discriminate].
      destruct (_ >? _); discriminate. }
  destruct (size fp >=? 4).
  - unfold read. destruct (_ && _); cbn [snd]; [|discriminate].
    cbn [ret]. destruct (magic_bytes _); [discriminate|]. apply Htail.
  - apply Htail.
Qed.

Lemma Detect_utf32le_before_utf16le_witness :
  snd (Detect WITHOUT_UCHARDET
         (one_file (memory_file [xff; xfe; x00; x00; x41; x00; x00; x00]))
         "a.ass" [])
  = Ok "utf-32le".
Proof.
  exact (proj1 (Detect_utf32le_before_utf16le WITHOUT_UCHARDET _ "a.ass"
                  (memory_file [xff; xfe; x00; x00; x41; x00; x00; x00]) _ []
                  eq_refl (fun _ => eq_refl) eq_refl)).
Defined.

Lemma Detect_io_failure_witness :
  Detect (WITH_UCHARDET latin1_detector) (one_file faulty_file) "a.ass" []
  = ([ReadEvent 0 4 true; ReadEvent 0 5 false], Fail IOError)
  /\ Detect WITHOUT_UCHARDET (fun _ => None) "a.ass" [] = ([], Fail IOError).
Proof.
  split.
  - assert (Hrun : exists r,
               Detect (WITH_UCHARDET latin1_detector) (one_file faulty_file)
                 "a.ass" []
               = ([ReadEvent 0 4 true; ReadEvent 0 5 false], r))
      by (eexists; reflexivity).
    destruct Hrun as [r Hrun]. rewrite Hrun. f_equal.
    apply (Detect_io_failure _ _ _ _ _ r Hrun). right.
    exists (ReadEvent 0 5 false). split; [right; left; reflexivity | reflexivity].
  - assert (Hrun : exists r,
               Detect WITHOUT_UCHARDET (fun _ => None) "a.ass" [] = ([], r))
      by (eexists; reflexivity).
    destruct Hrun as [r Hrun]. rewrite Hrun. f_equal.
    apply (Detect_io_failure _ _ _ _ _ r Hrun). left. reflexivity.
Defined.

(** ** More on the magic-byte check *)

Lemma uchar_inj c c' : uchar c = uchar c' -> c = c'.
Proof.
  unfold uchar. intros H. apply N2Z.inj in H.
  pose proof (Byte.of_to_N c) as Hc. rewrite H, Byte.of_to_N in Hc.
  congruence.
Qed.

Lemma uchar_eqb c c' : (uchar c =? uchar c') = Byte.eqb c c'.
Proof.
  destruct (Byte.eqb c c') eqn:E.
  - apply Byte.byte_dec_bl in E. subst. apply Z.eqb_refl.
  - apply Byte.eqb_false in E. apply Z.eqb_neq. intros H. apply E.
    now apply uchar_inj.
Qed.

(** One character of [strncmp]: the strings agree on it, and it ends
    them or the rest agrees. *)
Lemma strncmp_cons c s1 k s2 n :
  (strncmp (c :: s1) (k :: s2) (S n) =? 0)
  = Byte.eqb c k && (Byte.eqb c x00 || (strncmp s1 s2 n =? 0)).
Proof.
  cbn [strncmp hd tl]. rewrite uchar_eqb.
  destruct (Byte.eqb c k) eqn:E; cbn [negb andb].
  - change 0 with (uchar x00) at 1. rewrite uchar_eqb.
    destruct (Byte.eqb c x00); reflexivity.
  - apply Z.eqb_neq. apply Byte.eqb_false in E. intros H. apply E, uchar_inj. lia.
Qed.

(** The chain of comparisons, by the bytes it looks at. *)
Lemma magic_bytes_eqn c0 c1 c2 c3 :
  magic_bytes [c0; c1; c2; c3]
  = if Byte.eqb c0 xef && Byte.eqb c1 xbb && Byte.eqb c2 xbf then Some "utf-8"
    else if Byte.eqb c0 x00 then Some "utf-32be"
    else if Byte.eqb c0 xff && Byte.eqb c1 xfe && Byte.eqb c2 x00
         then Some "utf-32le"
    else if Byte.eqb c0 xfe && Byte.eqb c1 xff then Some "utf-16be"
    else if Byte.eqb c0 xff && Byte.eqb c1 xfe then Some "utf-16le"
    else if Byte.eqb c0 x1a && Byte.eqb c1 x45 && Byte.eqb c2 xdf
            && Byte.eqb c3 xa3 then Some "binary"
    else None.
Proof.
  unfold magic_bytes. rewrite !strncmp_cons. cbn [strncmp].
  rewrite !Z.eqb_refl, !orb_true_r, !andb_true_r.
  repeat match goal with
         | |- context [Byte.eqb ?c ?k] =>
             is_var c;
             let E := fresh "E" in
             destruct (Byte.eqb c k) eqn:E;
             [apply Byte.byte_dec_bl in E; subst c; cbn|]
         end;
    reflexivity.
Qed.

(** X2. Which four-byte headers the magic-byte check takes for what.
    The comparisons are made by [strncmp], which stops at a NUL of the
    literal: the UTF-32BE comparison looks at the first byte only, the
    UTF-32LE one at the first three. *)
Theorem magic_bytes_labels c0 c1 c2 c3 :
  let label := magic_bytes [c0; c1; c2; c3] in
  (label = Some "utf-8" <-> c0 = xef /\ c1 = xbb /\ c2 = xbf)
  /\ (label = Some "utf-32be" <-> c0 = x00)
  /\ (label = Some "utf-32le" <-> c0 = xff /\ c1 = xfe /\ c2 = x00)
  /\ (label = Some "utf-16be" <-> c0 = xfe /\ c1 = xff)
  /\ (label = Some "utf-16le" <-> c0 = xff /\ c1 = xfe /\ c2 <> x00)
  /\ (label = Some "binary"
      <-> c0 = x1a /\ c1 = x45 /\ c2 = xdf /\ c3 = xa3).
Proof.
  cbv zeta. rewrite magic_bytes_eqn.
  repeat match goal with
         | |- context [Byte.eqb ?c ?k] =>
             is_var c;
             let E := fresh "E" in
             destruct (Byte.eqb c k) eqn:E;
             [apply Byte.byte_dec_bl in E; subst c; cbn
             |apply Byte.eqb_false in E]
         end;
    repeat split; intros; try discriminate; intuition congruence.
Qed.

(** X3. A header that the magic-byte check recognises decides the
    answer on its own: [Detect] reads the four header bytes and nothing
    else, in both builds, whatever the size of the file and whatever
    would happen to later reads. *)
Theorem Detect_signature_first b fs file fp log label :
  fs file = Some fp -> 4 <= size fp ->
  faulty fp (length log) = false ->
  magic_bytes (slice (contents fp) 0 4) = Some label ->
  Detect b fs file log = (log ++ [ReadEvent 0 4 true], Ok label).
Proof.
  intros Hfs Hsz Hread Hmagic. unfold Detect, bind, open. rewrite Hfs.
  cbn [ret]. replace (size fp >=? 4) with true by (symmetry; apply Z.geb_le; lia).
  unfold read. rewrite Hread.
  replace (0 + 4 <=? size fp) with true by (symmetry; apply Z.leb_le; lia).
  cbn [Z.leb Z.compare andb negb ret]. rewrite Hmagic. reflexivity.
Qed.

Lemma Detect_signature_first_witness :
  Detect WITHOUT_UCHARDET
    (one_file (FileMapping [xfe; xff; x00; x01; x00; x02] (fun n => Nat.ltb 0 n)))
    "a.ass" []
  = ([] ++ [ReadEvent 0 4 true], Ok "utf-16be").
Proof.
  exact (Detect_signature_first WITHOUT_UCHARDET _ "a.ass"
           (FileMapping [xfe; xff; x00; x01; x00; x02] (fun n => Nat.ltb 0 n))
           [] "utf-16be" eq_refl ltac:(vm_compute; discriminate) eq_refl eq_refl).
Defined.

(** ** The size check *)

(** X1. A file of more than 100 MiB on which the magic-byte check finds
    nothing is binary in both builds, and is not read beyond its
    header. *)
Theorem Detect_too_large b fs file fp log :
  fs file = Some fp -> reliable fp -> no_signature fp ->
  size fp > 100 * 1024 * 1024 ->
  Detect b fs file log = (log ++ [ReadEvent 0 4 true], Ok "binary").
Proof.
  intros Hfs Hrel Hsig Hsz.
  rewrite (Detect_no_signature b fs file fp log Hfs Hrel Hsig).
  unfold after_signature, header_events, ret.
  rewrite gtb_true by assumption.
  replace (size fp >=? 4) with true by (symmetry; apply Z.geb_le; lia).
  reflexivity.
Qed.

Lemma size_repeat (c0 c1 c2 c3 c : byte) n :
  size (memory_file (c0 :: c1 :: c2 :: c3 :: repeat c n)) = Z.of_nat n + 4.
Proof.
  unfold size, memory_file. cbn [contents length].
  rewrite repeat_length. lia.
Qed.

Lemma huge_file_size : size huge_file = 100 * 1024 * 1024 + 4.
Proof.
  unfold huge_file. rewrite size_repeat, Z2Nat.id; [reflexivity | discriminate].
Qed.

Lemma Detect_too_large_witness :
  size huge_file > 100 * 1024 * 1024
  /\ Detect (WITH_UCHARDET latin1_detector) (one_file huge_file) "a.ass" []
     = ([] ++ [ReadEvent 0 4 true], Ok "binary").
Proof.
  assert (Hsz : size huge_file > 100 * 1024 * 1024)
    by (rewrite huge_file_size; lia).
  split; [exact Hsz|].
  exact (Detect_too_large (WITH_UCHARDET latin1_detector) _ "a.ass" huge_file []
           eq_refl (fun _ => eq_refl) (or_intror eq_refl) Hsz).
Defined.

(** ** The reads that [Detect] issues *)

Lemma scan_in_bounds {U : uchardet} fp :
  size fp < 2 ^ 64 ->
  forall fuel d st log,
    0 <= offset st <= size fp ->
    exists evs,
      fst (scan fuel fp d st log) = log ++ evs /\ Forall (in_bounds fp) evs.
Proof.
  intros Hsz. induction fuel as [|fuel IH]; intros d st log Hoff; cbn [scan].
  - exists []. rewrite app_nil_r. split; [reflexivity | constructor].
  - destruct (Z.ltb_spec (offset st) (size fp)) as [Hlt|Hge].
    + unfold bind, read.
      set (len := Z.min 4096 (size fp - offset st)).
      set (ok := _ && _).
      assert (Hev : in_bounds fp (ReadEvent (offset st) len ok))
        by (unfold in_bounds, len; cbn [ev_offset ev_length]; lia).
      destruct ok.
      * set (buf := slice (contents fp) (offset st) len).
        destruct (_ >? _).
        -- exists [ReadEvent (offset st) len true]. split; [reflexivity|].
           constructor; [exact Hev | constructor].
        -- destruct (IH (uchardet_handle_data d buf) (window_step st buf len)
                       (log ++ [ReadEvent (offset st) len true]))
             as (evs & Hlog & Hall).
           { unfold window_step. rewrite fold_byte_step_offset.
             cbn [advance offset]. rewrite u64_small; unfold len; lia. }
           exists (ReadEvent (offset st) len true :: evs).
           rewrite Hlog, <- app_assoc. split; [reflexivity|].
           constructor; assumption.
      * exists [ReadEvent (offset st) len false]. split; [reflexivity|].
        constructor; [exact Hev | constructor].
    + exists []. rewrite app_nil_r. split; [reflexivity | constructor].
Qed.

Lemma after_signature_in_bounds b fp log :
  exists evs,
    fst (after_signature b fp log) = log ++ evs /\ Forall (in_bounds fp) evs.
Proof.
  unfold after_signature.
  assert (Hpos : 0 <= size fp) by (unfold size; lia).
  destruct (Z.gtb_spec (size fp) (100 * 1024 * 1024)) as [Hbig|Hsmall].
  - exists []. rewrite app_nil_r. split; [reflexivity | constructor].
  - destruct b as [U|].
    + unfold detect_uchardet, bind.
      destruct (scan_in_bounds fp ltac:(lia) (scan_fuel fp) uchardet_new
                  initial_state log ltac:(cbn; lia)) as (evs & Hlog & Hall).
      exists evs. split; [|exact Hall].
      destruct (scan _ _ _ _ _) as [log1 [[st d|st d]|e]]; cbn [fst] in *;
        try assumption.
      destruct (_ <? 5); assumption.
    + unfold detect_plain, bind, read.
      exists [ReadEvent 0 (Z.min 4096 (size fp))
                ((0 <=? 0) && (0 <=? Z.min 4096 (size fp))
                 && (0 + Z.min 4096 (size fp) <=? size fp)
                 && negb (faulty fp (length log)))].
      split.
      * destruct (_ && _); [destruct (_ >? _)|]; reflexivity.
      * constructor; [|constructor]. unfold in_bounds.
        cbn [ev_offset ev_length]. lia.
Qed.

Lemma Detect_returns_reliable b fs file fp log :
  fs file = Some fp -> reliable fp ->
  exists label, snd (Detect b fs file log) = Ok label.
Proof.
  intros Hfs Hrel.
  destruct (Z.lt_ge_cases (size fp) 4) as [Hshort|Hlong];
    [|destruct (magic_bytes (slice (contents fp) 0 4)) as [label|] eqn:Hmagic].
  2: { exists label. now rewrite (Detect_signature b fs file fp log label). }
  all: rewrite (Detect_no_signature b fs file fp log Hfs Hrel)
         by (unfold no_signature; tauto).
  all: unfold after_signature;
       destruct (Z.gtb_spec (size fp) (100 * 1024 * 1024)) as [Hbig|Hsmall];
       [exists "binary"; reflexivity|].
  all: destruct b as [U|];
       [|rewrite detect_plain_spec by assumption; eexists; reflexivity].
  all: unfold detect_uchardet, bind;
       destruct (scan_single_window fp Hrel ltac:(lia) (log ++ header_events fp))
         as (evs & r & -> & _);
       destruct r as [st d|st d]; [eexists; reflexivity|];
       destruct (_ <? 5); eexists; reflexivity.
Qed.

(** X4. Every read that [Detect] issues lies inside the file and is at
    most 4096 bytes long, whether or not the byte source fails; with a
    byte source that does not fail, [Detect] returns a label. *)
Theorem Detect_reads_in_bounds b fs file fp log :
  fs file = Some fp ->
  (exists evs,
      fst (Detect b fs file log) = log ++ evs /\ Forall (in_bounds fp) evs)
  /\ (reliable fp -> exists label, snd (Detect b fs file log) = Ok label).
Proof.
  intros Hfs. split; [|intros Hrel; now apply Detect_returns_reliable with fp].
  unfold Detect, bind, open. rewrite Hfs. cbn [ret].
  destruct (Z.geb_spec (size fp) 4) as [Hge|Hlt].
  - unfold read.
    set (ok := _ && _).
    assert (Hev : in_bounds fp (ReadEvent 0 4 ok))
      by (unfold in_bounds; cbn [ev_offset ev_length]; lia).
    destruct ok; cbn [ret].
    + destruct (magic_bytes _).
      * exists [ReadEvent 0 4 true]. split; [reflexivity|].
        constructor; [exact Hev | constructor].
      * destruct (after_signature_in_bounds b fp (log ++ [ReadEvent 0 4 true]))
          as (evs & Hlog & Hall).
        exists (ReadEvent 0 4 true :: evs). unfold after_signature in Hlog.
        rewrite Hlog, <- app_assoc. split; [reflexivity|].
        constructor; assumption.
    + exists [ReadEvent 0 4 false]. split; [reflexivity|].
      constructor; [exact Hev | constructor].
  - apply (after_signature_in_bounds b fp log).
Qed.

Lemma Detect_reads_in_bounds_witness :
  (exists evs,
      fst (Detect (WITH_UCHARDET latin1_detector) (one_file ascii_file)
             "a.ass" [])
      = [] ++ evs
      /\ Forall (in_bounds ascii_file) evs)
  /\ exists label,
       snd (Detect (WITH_UCHARDET latin1_detector) (one_file ascii_file)
              "a.ass" [])
       = Ok label.
Proof.
  destruct (Detect_reads_in_bounds (WITH_UCHARDET latin1_detector)
              (one_file ascii_file) "a.ass" ascii_file [] eq_refl)
    as [Hreads Hlabel].
  split; [exact Hreads | exact (Hlabel (fun _ => eq_refl))].
Defined.

(** ** The answers of [Detect] *)

Lemma magic_bytes_fixed header label :
  magic_bytes header = Some label -> In label fixed_labels.
Proof.
  unfold magic_bytes, fixed_labels.
  repeat match goal with
         | |- context [if ?t then _ else _] => destruct t
         end;
    intros H; inversion H; subst; cbn; tauto.
Qed.

(** X5. A label that [Detect] returns is one of the six it spells out,
    or, in the build with [uchardet], what the detector says after
    [uchardet_data_end]. *)
Theorem Detect_labels b fs file log label :
  snd (Detect b fs file log) = Ok label ->
  In label fixed_labels
  \/ exists (U : uchardet) (d : uchardet_t),
       b = WITH_UCHARDET U
       /\ label = uchardet_get_charset (uchardet_data_end d).
Proof.
  unfold Detect, bind, open.
  destruct (fs file) as [fp|]; cbn [ret raise snd]; [|discriminate].
  assert (Htail : forall log1,
             snd (after_signature b fp log1) = Ok label ->
             In label fixed_labels
             \/ exists (U : uchardet) (d : uchardet_t),
                  b = WITH_UCHARDET U
                  /\ label = uchardet_get_charset (uchardet_data_end d)).
  { intros log1. unfold after_signature.
    destruct (size fp >? 100 * 1024 * 1024).
    - intros H. inversion H. left. cbn. tauto.
    - destruct b as [U|].
      + unfold detect_uchardet, bind.
        destruct (scan _ _ _ _ _) as [log2 [[st d|st d]|e]]; cbn [snd ret].
        * intros H. inversion H. left. cbn. tauto.
        * destruct (_ <? 5); intros H; inversion H.
          -- left. cbn. tauto.
          -- right. exists U, d. split; reflexivity.
        * discriminate.
      + unfold detect_plain, bind, read.
        destruct (_ && _); [|discriminate].
        destruct (_ >? _); intros H; inversion H; left; cbn; tauto. }
  destruct (size fp >=? 4); [|apply Htail].
  unfold read. destruct (_ && _); cbn [ret snd]; [|discriminate].
  destruct (magic_bytes _) as [l|] eqn:Hmagic; [|apply Htail].
  cbn [snd]. intros H. inversion H. subst. left.
  eapply magic_bytes_fixed. eassumption.
Qed.

Lemma Detect_labels_witness :
  snd (Detect (WITH_UCHARDET latin1_detector)
         (one_file (memory_file [xe9; x74; xe9; x20; xe0; x20; xe8; x20; xf9]))
         "a.ass" [])
  = Ok "windows-1252"
  /\ (In "windows-1252" fixed_labels
      \/ exists (U : uchardet) (d : uchardet_t),
           WITH_UCHARDET latin1_detector = WITH_UCHARDET U
           /\ "windows-1252" = uchardet_get_charset (uchardet_data_end d)).
Proof.
  split; [reflexivity|].
  exact (Detect_labels (WITH_UCHARDET latin1_detector)
           (one_file (memory_file [xe9; x74; xe9; x20; xe0; x20; xe8; x20; xf9]))
           "a.ass" [] "windows-1252" eq_refl).
Defined.

(** ** The two builds *)

(** X6. The two builds never contradict each other on "binary" and
    "utf-8": what the build without [uchardet] calls binary, the build
    with it calls binary too, and what the build with [uchardet] calls
    utf-8, the build without it calls utf-8 too. *)
Theorem builds_agree {U : uchardet} fs file fp log :
  fs file = Some fp -> reliable fp ->
  (snd (Detect WITHOUT_UCHARDET fs file log) = Ok "binary" ->
   snd (Detect (WITH_UCHARDET U) fs file log) = Ok "binary")
  /\ (snd (Detect (WITH_UCHARDET U) fs file log) = Ok "utf-8" ->
      snd (Detect WITHOUT_UCHARDET fs file log) = Ok "utf-8").
Proof.
  intros Hfs Hrel.
  destruct (Z.lt_ge_cases (size fp) 4) as [Hshort|Hlong];
    [|destruct (magic_bytes (slice (contents fp) 0 4)) as [label|] eqn:Hmagic].
  2: { rewrite !(Detect_signature _ fs file fp log label) by assumption.
       split; intros H; exact H. }
  all: rewrite !(Detect_no_signature _ fs file fp log Hfs Hrel)
         by (unfold no_signature; tauto).
  all: unfold after_signature;
       destruct (Z.gtb_spec (size fp) (100 * 1024 * 1024)) as [Hbig|Hsmall];
       [split; [intros H; exact H | discriminate]|].
  all: rewrite detect_plain_spec by assumption; cbn [snd].
  all: assert (Hfirst : control_count
                          (firstn (Z.to_nat (Z.min 4096 (size fp))) (contents fp))
                        > Z.min 4096 (size fp) / 8 ->
                        snd (detect_uchardet fp (log ++ header_events fp))
                        = Ok "binary")
         by (intros Hgt; unfold detect_uchardet, bind;
             destruct (scan_trips fp Hrel ltac:(lia) 1 (log ++ header_events fp)
                         ltac:(lia)) as (evs & st & d & -> & _);
               [unfold trips, windows, window_end; fold (size fp);
                rewrite Z.mul_1_r; exact Hgt
               |reflexivity]).
  all: destruct (Z.gtb_spec
                   (control_count
                      (firstn (Z.to_nat (Z.min 4096 (size fp))) (contents fp)))
                   (Z.min 4096 (size fp) / 8)) as [Hgt|Hle];
       split; try discriminate; try reflexivity;
       intros H; try (apply Hfirst; lia);
       rewrite Hfirst in H by lia; discriminate.
Qed.

Lemma builds_agree_witness :
  (snd (Detect WITHOUT_UCHARDET (one_file control_prefix_file) "a.ass" [])
   = Ok "binary" ->
   snd (Detect (WITH_UCHARDET latin1_detector) (one_file control_prefix_file)
          "a.ass" [])
   = Ok "binary")
  /\ (snd (Detect (WITH_UCHARDET latin1_detector) (one_file control_prefix_file)
             "a.ass" [])
      = Ok "utf-8" ->
      snd (Detect WITHOUT_UCHARDET (one_file control_prefix_file) "a.ass" [])
      = Ok "utf-8").
Proof.
  exact (@builds_agree latin1_detector (one_file control_prefix_file) "a.ass"
           control_prefix_file [] eq_refl (fun _ => eq_refl)).
Defined.

(** ** What the validator accepts *)

Lemma byte_step_ascii_shape st c :
  utf8_cont_bytes st = 0 -> countl_one c = 0 ->
  utf8_errors (byte_step st c) = utf8_errors st
  /\ utf8_cont_bytes (byte_step st c) = 0.
Proof.
  intros Hc Hl. unfold byte_step, utf8_step. rewrite Hc, Hl.
  split; reflexivity.
Qed.

Lemma fold_byte_step_shaped l :
  utf8_shaped l ->
  forall st, utf8_cont_bytes st = 0 ->
    utf8_errors (fold_left byte_step l st) = utf8_errors st
    /\ utf8_cont_bytes (fold_left byte_step l st) = 0.
Proof.
  induction 1 as [|c l Hc _ IH|lead conts l Hlead Hlen Hconts _ IH];
    intros st Hst.
  - split; [reflexivity | exact Hst].
  - cbn [fold_left].
    destruct (byte_step_ascii_shape st c Hst Hc) as [He Hz].
    destruct (IH (byte_step st c) Hz) as [He' Hz'].
    split; [congruence | exact Hz'].
  - cbn [fold_left]. rewrite fold_left_app.
    destruct (byte_step_lead st lead Hlead) as [He Hn].
    destruct (fold_byte_step_continuations conts (byte_step st lead) Hconts
                ltac:(lia)) as [He' Hz].
    destruct (IH _ Hz) as [He'' Hz''].
    split; [|exact Hz''].
    rewrite He'', He', He. unfold final_utf8_errors. rewrite Hst. reflexivity.
Qed.

(** One more byte never lowers [utf8_errors], and raises by at most one
    the count that takes a pending sequence for the error it will be if
    nothing continues it. *)
Lemma byte_step_final_errors st c :
  0 <= utf8_errors st -> utf8_errors st + 2 < 2 ^ 64 ->
  0 <= utf8_cont_bytes st <= 3 ->
  utf8_errors st <= utf8_errors (byte_step st c)
  /\ final_utf8_errors (byte_step st c) <= final_utf8_errors st + 1
  /\ 0 <= utf8_cont_bytes (byte_step st c) <= 3.
Proof.
  intros He Hno Hc. pose proof (countl_one_range c) as Hl.
  destruct (byte_step_fields st c) as (_ & _ & Herr & Hcont).
  unfold final_utf8_errors. rewrite Herr, Hcont. unfold utf8_step.
  destruct (Z.eqb_spec (utf8_cont_bytes st) 0) as [Hz|Hnz]; cbn [negb andb];
    destruct (Z.eqb_spec (countl_one c) 1) as [H1|H1]; cbn [fst snd negb];
    try destruct (Z.gtb_spec (countl_one c) 4); cbn [fst snd negb];
    try destruct (Z.gtb_spec (countl_one c) 1); cbn [fst snd negb];
    repeat match goal with
           | |- context [?a =? 0] => destruct (Z.eqb_spec a 0); cbn [negb]
           end;
    rewrite ?(u64_small (utf8_errors st + 1)) by lia;
    rewrite ?(u64_small (utf8_errors st + 1 + 1)) by lia;
    lia.
Qed.

Lemma fold_byte_step_final_errors l : forall st,
  0 <= utf8_errors st ->
  utf8_errors st + 2 * Z.of_nat (length l) + 1 < 2 ^ 64 ->
  0 <= utf8_cont_bytes st <= 3 ->
  utf8_errors st <= utf8_errors (fold_left byte_step l st)
  /\ final_utf8_errors (fold_left byte_step l st)
     <= final_utf8_errors st + Z.of_nat (length l)
  /\ utf8_errors (fold_left byte_step l st)
     <= utf8_errors st + 2 * Z.of_nat (length l).
Proof.
  induction l as [|c l IH]; intros st He Hno Hc; cbn [fold_left length] in *.
  - lia.
  - rewrite Nat2Z.inj_succ in *.
    destruct (byte_step_final_errors st c He ltac:(lia) Hc)
      as (Hmono & Hfinal & Hc').
    pose proof (utf8_step_bounds (utf8_errors st) (utf8_cont_bytes st) c He
                  ltac:(lia) Hc) as [Hb _].
    destruct (byte_step_fields st c) as (_ & _ & Herr & _).
    rewrite <- Herr in Hb.
    destruct (IH (byte_step st c) ltac:(lia) ltac:(lia) Hc') as (H1 & H2 & H3).
    lia.
Qed.

Lemma final_utf8_errors_ge st :
  0 <= utf8_errors st -> utf8_errors st + 1 < 2 ^ 64 ->
  utf8_errors st <= final_utf8_errors st
  /\ (final_utf8_errors st = utf8_errors st -> utf8_cont_bytes st = 0).
Proof.
  intros He Hno. unfold final_utf8_errors.
  destruct (Z.eqb_spec (utf8_cont_bytes st) 0); cbn [negb];
    rewrite ?u64_small by lia; lia.
Qed.

(** If a run adds no error, the bytes are the continuation bytes that
    were pending, followed by well-shaped text. *)
Lemma fold_byte_step_no_error l : forall st,
  0 <= utf8_errors st ->
  utf8_errors st + 2 * Z.of_nat (length l) + 1 < 2 ^ 64 ->
  0 <= utf8_cont_bytes st <= 3 ->
  final_utf8_errors (fold_left byte_step l st) = utf8_errors st ->
  exists conts rest,
    l = conts ++ rest
    /\ Z.of_nat (length conts) = utf8_cont_bytes st
    /\ Forall (fun c => countl_one c = 1) conts
    /\ utf8_shaped rest.
Proof.
  induction l as [|c l IH]; intros st He Hno Hc Hfinal; cbn [fold_left] in Hfinal.
  - exists [], []. cbn [length] in *.
    destruct (final_utf8_errors_ge st He ltac:(lia)) as [_ Hz].
    repeat split; [symmetry; auto | constructor | constructor].
  - cbn [length] in Hno. rewrite Nat2Z.inj_succ in Hno.
    destruct (byte_step_final_errors st c He ltac:(lia) Hc)
      as (Hmono & _ & Hc').
    pose proof (utf8_step_bounds (utf8_errors st) (utf8_cont_bytes st) c He
                  ltac:(lia) Hc) as [Hb _].
    destruct (byte_step_fields st c) as (_ & _ & Herr & Hcont).
    rewrite <- Herr in Hb.
    destruct (fold_byte_step_final_errors l (byte_step st c) ltac:(lia)
                ltac:(lia) Hc') as (Hrun & _ & _).
    destruct (final_utf8_errors_ge (fold_left byte_step l (byte_step st c))
                ltac:(lia)) as [Hge _].
    { pose proof (fold_byte_step_final_errors l (byte_step st c) ltac:(lia)
                    ltac:(lia) Hc') as (_ & _ & Hup). lia. }
    assert (Hsame : utf8_errors (byte_step st c) = utf8_errors st) by lia.
    destruct (IH (byte_step st c) ltac:(lia) ltac:(lia) Hc' ltac:(lia))
      as (conts & rest & Hl & Hlen & Hconts & Hrest).
    pose proof (countl_one_range c) as Hrange.
    revert Hsame Hlen. rewrite Herr, Hcont. unfold utf8_step.
    destruct (Z.eqb_spec (utf8_cont_bytes st) 0) as [Hz|Hnz]; cbn [negb andb];
      destruct (Z.eqb_spec (countl_one c) 1) as [H1|H1]; cbn [fst snd];
      try destruct (Z.gtb_spec (countl_one c) 4); cbn [fst snd];
      try destruct (Z.gtb_spec (countl_one c) 1); cbn [fst snd];
      rewrite ?(u64_small (utf8_errors st + 1)) by lia;
      rewrite ?(u64_small (utf8_errors st + 1 + 1)) by lia;
      intros Hsame Hlen; try lia.
    + (* a lead byte opens a sequence *)
      exists [], (c :: conts ++ rest). subst l.
      repeat split; [cbn; lia | constructor|].
      apply shaped_sequence; try assumption; lia.
    + (* an ASCII byte *)
      destruct conts; [|cbn [length] in Hlen; lia].
      exists [], (c :: rest). subst l.
      repeat split; [cbn; lia | constructor|].
      apply shaped_ascii; [lia | assumption].
    + (* a continuation byte that was expected *)
      exists (c :: conts), rest. subst l.
      repeat split; [cbn [length]; lia | constructor; assumption | assumption].
Qed.

(** X7. The validator counts no error, the check after the loop
    included, exactly on the byte strings made of ASCII bytes and of
    lead bytes followed by the continuation bytes they announce. *)
Theorem utf8_no_error_iff_shaped l :
  2 * Z.of_nat (length l) + 1 < 2 ^ 64 ->
  final_utf8_errors (single_window l) = 0 <-> utf8_shaped l.
Proof.
  intros Hlen. unfold single_window, window_step. split.
  - intros Hfinal.
    destruct (fold_byte_step_no_error l
                (advance initial_state (Z.of_nat (length l))))
      as (conts & rest & Hl & Hn & _ & Hrest);
      cbn [advance initial_state utf8_errors utf8_cont_bytes]; try lia.
    cbn [advance initial_state utf8_cont_bytes] in Hn.
    destruct conts; [|cbn [length] in Hn; lia]. subst l. exact Hrest.
  - intros Hshaped.
    destruct (fold_byte_step_shaped l Hshaped
                (advance initial_state (Z.of_nat (length l))) eq_refl)
      as [He Hz].
    unfold final_utf8_errors. rewrite Hz, He. reflexivity.
Qed.

Lemma utf8_no_error_iff_shaped_witness :
  2 * Z.of_nat (length utf8_text) + 1 < 2 ^ 64 /\ utf8_shaped utf8_text.
Proof.
  assert (Hlen : 2 * Z.of_nat (length utf8_text) + 1 < 2 ^ 64)
    by (vm_compute; reflexivity).
  split; [exact Hlen|].
  exact (proj1 (utf8_no_error_iff_shaped utf8_text Hlen) eq_refl).
Defined.

Lemma utf8_errors_bound l :
  2 * Z.of_nat (length l) + 1 < 2 ^ 64 ->
  final_utf8_errors (single_window l) <= Z.of_nat (length l).
Proof.
  intros Hlen. unfold single_window, window_step.
  destruct (fold_byte_step_final_errors l
              (advance initial_state (Z.of_nat (length l))))
    as (_ & Hfinal & _);
    cbn [advance initial_state utf8_errors utf8_cont_bytes] in *; try lia.
  exact Hfinal.
Qed.

(** X8. The validator counts at most one error per byte, the check
    after the loop included. *)
Theorem utf8_errors_at_most_length l :
  2 * Z.of_nat (length l) + 1 < 2 ^ 64 ->
  0 <= final_utf8_errors (single_window l) <= Z.of_nat (length l).
Proof.
  intros Hlen. unfold single_window, window_step.
  destruct (fold_byte_step_final_errors l
              (advance initial_state (Z.of_nat (length l))))
    as (Hmono & Hfinal & Hup);
    cbn [advance initial_state utf8_errors utf8_cont_bytes] in *; try lia.
  change (final_utf8_errors (advance initial_state (Z.of_nat (length l))))
    with 0 in Hfinal.
  destruct (final_utf8_errors_ge
              (fold_left byte_step l
                 (advance initial_state (Z.of_nat (length l)))))
    as [Hge _]; lia.
Qed.

Lemma utf8_errors_at_most_length_witness :
  0 <= final_utf8_errors (single_window latin1_text)
    <= Z.of_nat (length latin1_text).
Proof.
  exact (utf8_errors_at_most_length latin1_text ltac:(vm_compute; reflexivity)).
Defined.

(** X9. Well-shaped UTF-8 of at most 100 MiB, on which the magic-byte
    check finds nothing and the binary test never succeeds, is utf-8 in
    both builds: the detector is not asked. *)
Theorem Detect_utf8_text b fs file fp log :
  fs file = Some fp -> reliable fp -> no_signature fp ->
  size fp <= 100 * 1024 * 1024 ->
  utf8_shaped (contents fp) ->
  (forall k, 1 <= k -> ~ trips (contents fp) k) ->
  snd (Detect b fs file log) = Ok "utf-8".
Proof.
  intros Hfs Hrel Hsig Hsz Hshaped Hnone.
  rewrite (Detect_no_signature _ fs file fp log Hfs Hrel Hsig).
  unfold after_signature. rewrite gtb_false by assumption.
  destruct b as [U|].
  - apply detect_uchardet_completes; try assumption; [lia|].
    destruct (fold_byte_step_shaped _ Hshaped
                (advance initial_state (Z.of_nat (length (contents fp))))
                eq_refl) as [He Hz].
    unfold final_utf8_errors, single_window, window_step.
    rewrite Hz, He. reflexivity.
  - rewrite detect_plain_spec by assumption. cbn [snd].
    rewrite gtb_false; [reflexivity|].
    specialize (Hnone 1 ltac:(lia)). unfold trips, windows in Hnone.
    fold (size fp) in Hnone. unfold window_end in Hnone.
    rewrite Z.mul_1_r in Hnone. lia.
Qed.

Lemma utf8_text_shaped : utf8_shaped utf8_text.
Proof.
  unfold utf8_text.
  do 3 (apply shaped_ascii; [reflexivity|]).
  apply (shaped_sequence xc3 [xa9]); try reflexivity;
    [split; discriminate | repeat constructor|].
  apply shaped_ascii; [reflexivity|].
  apply (shaped_sequence xe2 [x82; xac]); try reflexivity;
    [split; discriminate | repeat constructor|].
  apply shaped_ascii; [reflexivity|].
  apply (shaped_sequence xf0 [x9f; x98; x80]); try reflexivity;
    [split; discriminate | repeat constructor|].
  apply shaped_ascii; [reflexivity|]. constructor.
Qed.

Lemma Detect_utf8_text_witness :
  snd (Detect (WITH_UCHARDET latin1_detector) (one_file (memory_file utf8_text))
         "a.ass" [])
  = Ok "utf-8".
Proof.
  apply (Detect_utf8_text (WITH_UCHARDET latin1_detector) _ "a.ass"
           (memory_file utf8_text) [] eq_refl (fun _ => eq_refl)).
  - right. reflexivity.
  - vm_compute. discriminate.
  - exact utf8_text_shaped.
  - apply (never_trips_by_cases _ 1).
    + intros k Hk. lia.
    + vm_compute. discriminate.
    + vm_compute. discriminate.
Defined.

(** ** Files of a few bytes *)

(** X10. On a file of at most four bytes on which the magic-byte check
    finds nothing, both builds answer "binary" if some byte is
    control-like and "utf-8" otherwise: so few bytes cannot reach five
    errors, and the detector is not asked. *)
Theorem Detect_short_file b fs file fp log :
  fs file = Some fp -> reliable fp -> no_signature fp ->
  size fp <= 4 ->
  snd (Detect b fs file log)
  = Ok (if control_count (contents fp) >? 0 then "binary" else "utf-8").
Proof.
  intros Hfs Hrel Hsig Hsz.
  assert (Hpos : 0 <= size fp) by (unfold size; lia).
  assert (Hdiv : size fp / 8 = 0) by (apply Z.div_small; lia).
  rewrite (Detect_no_signature _ fs file fp log Hfs Hrel Hsig).
  unfold after_signature. rewrite gtb_false by lia.
  assert (Hwhole : firstn (Z.to_nat (Z.min 4096 (size fp))) (contents fp)
                   = contents fp).
  { rewrite Z.min_r by lia. unfold size. rewrite Nat2Z.id. apply firstn_all. }
  destruct b as [U|].
  - destruct (Z.gtb_spec (control_count (contents fp)) 0) as [Hctl|Hclean].
    + unfold detect_uchardet, bind.
      destruct (scan_trips fp Hrel ltac:(lia) 1 (log ++ header_events fp)
                  ltac:(lia)) as (evs & st & d & -> & _); [|reflexivity].
      unfold trips, windows, window_end. fold (size fp).
      rewrite Z.mul_1_r, Hwhole, Z.min_r, Hdiv by lia. lia.
    + pose proof (control_count_range (contents fp)).
      apply detect_uchardet_completes; try assumption; [lia| |].
      * intros k Hk. apply clean_never_trips; lia.
      * pose proof (utf8_errors_bound (contents fp)) as Hb.
        unfold size in *. lia.
  - rewrite detect_plain_spec by assumption. cbn [snd].
    rewrite Hwhole, Z.min_r, Hdiv by lia. reflexivity.
Qed.

Lemma Detect_short_file_witness :
  snd (Detect (WITH_UCHARDET latin1_detector)
         (one_file (memory_file [xff; x80; xc0; xbf])) "a.ass" [])
  = Ok (if control_count [xff; x80; xc0; xbf] >? 0 then "binary" else "utf-8").
Proof.
  exact (Detect_short_file (WITH_UCHARDET latin1_detector) _ "a.ass"
           (memory_file [xff; x80; xc0; xbf]) [] eq_refl (fun _ => eq_refl)
           (or_intror eq_refl) ltac:(vm_compute; discriminate)).
Defined.

(** ** What the detector is fed *)

Lemma window_count_spec l :
  let n := Z.of_nat (window_count l) in
  Z.of_nat (length l) <= 4096 * n
  /\ (window_count l = 0%nat \/ 4096 * (n - 1) < Z.of_nat (length l)).
Proof.
  cbv zeta. unfold window_count.
  set (len := Z.of_nat (length l)).
  assert (Hlen : 0 <= len) by (unfold len; lia).
  pose proof (Z.div_mod (len + 4095) 4096 ltac:(lia)) as Hdm.
  pose proof (Z.mod_pos_bound (len + 4095) 4096 ltac:(lia)) as Hmod.
  assert (0 <= (len + 4095) / 4096) by (apply Z.div_pos; lia).
  rewrite Z2Nat.id by assumption.
  split; [lia|].
  destruct (Z.eq_dec ((len + 4095) / 4096) 0) as [->|Hne]; [left; reflexivity|].
  right. lia.
Qed.

Lemma window_count_unique l n :
  Z.of_nat (length l) <= 4096 * Z.of_nat n ->
  n = 0%nat \/ 4096 * (Z.of_nat n - 1) < Z.of_nat (length l) ->
  n = window_count l.
Proof.
  intros Hup Hlow. destruct (window_count_spec l) as [Hup' Hlow'].
  destruct Hlow as [->|Hlow]; destruct Hlow' as [Hz|Hlow']; try lia.
Qed.

(** The first [n] windows, one after the other, are the bytes that lie
    in them. *)
Lemma concat_windows l n :
  concat (map (window l) (seq 0 n)) = windows l (Z.of_nat n).
Proof.
  induction n as [|n IH].
  - unfold windows, window_end. cbn [seq map concat].
    replace (Z.to_nat _) with 0%nat by lia. reflexivity.
  - rewrite seq_S, map_app, concat_app, IH. cbn [map concat Nat.add].
    rewrite app_nil_r. unfold windows, window, window_end.
    set (len := Z.of_nat (length l)).
    assert (Hlen : 0 <= len) by (unfold len; lia).
    destruct (Z.le_gt_cases (4096 * Z.of_nat n) len) as [Hin|Hout].
    + rewrite (Z.min_l (4096 * Z.of_nat n)) by lia.
      rewrite <- firstn_slice by lia. f_equal. lia.
    + rewrite !Z.min_r by lia.
      unfold slice.
      replace (Z.to_nat (len - 4096 * Z.of_nat n)) with 0%nat by lia.
      cbn [firstn]. now rewrite app_nil_r.
Qed.

Lemma concat_window_list l : concat (window_list l) = l.
Proof.
  unfold window_list. rewrite concat_windows. unfold windows.
  destruct (window_count_spec l) as [Hup _].
  rewrite window_end_past by exact Hup.
  rewrite Nat2Z.id. apply firstn_all.
Qed.

Lemma scan_feeds {U : uchardet} fp :
  reliable fp -> size fp < 2 ^ 64 ->
  forall fuel k d st log log' r,
    offset st = window_end (size fp) (Z.of_nat k) ->
    scan fuel fp d st log = (log', Ok r) ->
    exists n,
      log' = log ++ map (window_event (contents fp)) (seq k n)
      /\ final_detector r
         = fold_left uchardet_handle_data
             (map (window (contents fp)) (seq k n)) d
      /\ match r with
         | Binary _ _ => True
         | Scanned _ _ =>
             size fp <= 4096 * Z.of_nat (k + n)
             /\ (n = 0%nat \/ 4096 * (Z.of_nat (k + n) - 1) < size fp)
         end.
Proof.
  intros Hrel Hsz.
  induction fuel as [|fuel IH]; intros k d st log log' r Hoff Hscan;
    cbn [scan] in Hscan; [discriminate|].
  assert (Hpos : 0 <= size fp) by (unfold size; lia).
  rewrite Hoff in Hscan.
  destruct (Z.ltb_spec (window_end (size fp) (Z.of_nat k)) (size fp))
    as [Hlt|Hge].
  - assert (Hk : window_end (size fp) (Z.of_nat k) = 4096 * Z.of_nat k)
      by (unfold window_end in *; lia).
    rewrite Hk in *. unfold bind in Hscan.
    rewrite read_ok in Hscan by (try assumption; lia).
    fold (size fp) in Hscan.
    change (slice (contents fp) (4096 * Z.of_nat k)
              (Z.min 4096 (size fp - 4096 * Z.of_nat k)))
      with (window (contents fp) k) in Hscan.
    change (ReadEvent (4096 * Z.of_nat k)
              (Z.min 4096 (size fp - 4096 * Z.of_nat k)) true)
      with (window_event (contents fp) k) in Hscan.
    set (len := Z.min 4096 (size fp - 4096 * Z.of_nat k)) in *.
    set (st' := window_step st (window (contents fp) k) len) in *.
    destruct (binaryish st' >? offset st' / 8).
    + injection Hscan as <- <-. exists 1%nat. cbn [seq map fold_left final_detector].
      repeat split.
    + assert (Hoff' : offset st' = window_end (size fp) (Z.of_nat (S k))).
      { unfold st', window_step. rewrite fold_byte_step_offset.
        cbn [advance offset]. rewrite Hoff, u64_small; unfold window_end, len; lia. }
      destruct (IH (S k) _ st' _ log' r Hoff' Hscan) as (n & Hlog & Hd & Hr).
      exists (S n). cbn [seq map fold_left].
      rewrite Hlog, <- app_assoc. repeat split; try assumption.
      destruct r as [st1 d1|st1 d1]; [exact I|].
      destruct Hr as [Hup Hlow]. split; [lia|]. right.
      destruct Hlow as [->|Hlow]; lia.
  - injection Hscan as <- <-. exists 0%nat. cbn [seq map fold_left final_detector].
    rewrite app_nil_r. repeat split.
    + unfold window_end in Hge. lia.
    + left. reflexivity.
Qed.

(** X11. With [uchardet], when the magic-byte check finds nothing, the
    file has at most 100 MiB and the binary test never succeeds:
    [Detect] reads the header and then the windows of the file, each
    once and in order; the detector has been fed exactly these windows,
    which put end to end are the file; and the answer is utf-8 if the
    validator counted fewer than five errors, else what the detector
    says once it is told that the data has ended. *)
Theorem Detect_uchardet_feeding {U : uchardet} fs file fp log :
  fs file = Some fp -> reliable fp -> no_signature fp ->
  size fp <= 100 * 1024 * 1024 ->
  (forall k, 1 <= k -> ~ trips (contents fp) k) ->
  Detect (WITH_UCHARDET U) fs file log
  = (log ++ header_events fp
       ++ map (window_event (contents fp)) (seq 0 (window_count (contents fp))),
     Ok (if final_utf8_errors (single_window (contents fp)) <? 5 then "utf-8"
         else uchardet_get_charset
                (uchardet_data_end
                   (fold_left uchardet_handle_data (window_list (contents fp))
                      uchardet_new))))
  /\ concat (window_list (contents fp)) = contents fp.
Proof.
  intros Hfs Hrel Hsig Hsz Hnone. split; [|apply concat_window_list].
  rewrite (Detect_no_signature _ fs file fp log Hfs Hrel Hsig).
  unfold after_signature. rewrite gtb_false by assumption.
  unfold detect_uchardet, bind.
  destruct (scan_completes fp Hrel ltac:(lia) (log ++ header_events fp) Hnone)
    as (evs & d & Hscan & _).
  assert (Hstart : offset initial_state = window_end (size fp) (Z.of_nat 0))
    by (unfold window_end, size; cbn [offset initial_state Z.of_nat]; lia).
  destruct (scan_feeds fp Hrel ltac:(lia) _ 0%nat _ _ _ _ _ Hstart Hscan)
    as (n & Hlog & Hd & Hup & Hlow).
  assert (Hn : n = window_count (contents fp))
    by (apply window_count_unique; unfold size in *;
        rewrite ?Nat.add_0_l in *; assumption).
  subst n. rewrite Hscan. cbn [final_detector] in Hd. subst d.
  rewrite Hlog, <- app_assoc. unfold window_list.
  destruct (_ <? 5); reflexivity.
Qed.

Lemma Detect_uchardet_feeding_witness :
  Detect (WITH_UCHARDET latin1_detector) (one_file (memory_file latin1_text))
    "a.ass" []
  = ([ReadEvent 0 4 true; ReadEvent 0 9 true], Ok "windows-1252")
  /\ concat (window_list latin1_text) = latin1_text.
Proof.
  apply (@Detect_uchardet_feeding latin1_detector
           (one_file (memory_file latin1_text)) "a.ass"
           (memory_file latin1_text) [] eq_refl (fun _ => eq_refl)).
  - right. reflexivity.
  - vm_compute. discriminate.
  - apply (never_trips_by_cases _ 1).
    + intros k Hk. lia.
    + vm_compute. discriminate.
    + vm_compute. discriminate.
Defined.

(** ** After a failed read *)

Lemma Forall_removelast {A} (P : A -> Prop) l :
  Forall P l -> Forall P (removelast l).
Proof.
  induction 1 as [|x l Hx Hl IH]; cbn [removelast]; [constructor|].
  destruct l; [constructor|]. constructor; assumption.
Qed.

Lemma stops_ret {A} (a : A) : stops_at_failure (ret a).
Proof.
  intros log. exists []. cbn. rewrite app_nil_r.
  repeat split; constructor.
Qed.

Lemma stops_raise {A} e : stops_at_failure (@raise A e).
Proof.
  intros log. exists []. cbn. rewrite app_nil_r.
  repeat split; [constructor | discriminate].
Qed.

Lemma stops_read fp off len : stops_at_failure (read fp off len).
Proof.
  intros log. unfold read. eexists. split; [reflexivity|].
  cbn [removelast fst snd]. split; [constructor|].
  intros a. destruct (_ && _); [|discriminate].
  intros _. constructor; [reflexivity | constructor].
Qed.

Lemma stops_bind {A B} (m : io A) (k : A -> io B) :
  stops_at_failure m -> (forall a, stops_at_failure (k a)) ->
  stops_at_failure (bind m k).
Proof.
  intros Hm Hk log. unfold bind.
  destruct (Hm log) as (evs1 & Hlog1 & Hinit1 & Hok1).
  destruct (m log) as [log1 [a|e]]; cbn [fst snd] in *; subst log1.
  - specialize (Hok1 a eq_refl).
    destruct (Hk a (log ++ evs1)) as (evs2 & Hlog2 & Hinit2 & Hok2).
    exists (evs1 ++ evs2). rewrite app_assoc. split; [exact Hlog2|]. split.
    + destruct evs2 as [|ev evs2].
      * rewrite app_nil_r. now apply Forall_removelast.
      * rewrite removelast_app by discriminate.
        apply Forall_app. split; assumption.
    + intros b Hb. apply Forall_app. split; [assumption | eauto].
  - exists evs1. repeat split; [assumption | discriminate].
Qed.

Lemma stops_scan {U : uchardet} fp : forall fuel d st,
  stops_at_failure (scan fuel fp d st).
Proof.
  induction fuel as [|fuel IH]; intros d st; cbn [scan].
  - apply stops_raise.
  - destruct (offset st <? size fp); [|apply stops_ret].
    apply stops_bind; [apply stops_read|].
    intros buf. cbv zeta.
    destruct (binaryish _ >? _); [apply stops_ret | apply IH].
Qed.

Lemma stops_Detect b fs file : stops_at_failure (Detect b fs file).
Proof.
  unfold Detect.
  apply stops_bind.
  { unfold open. destruct (fs file); [apply stops_ret | apply stops_raise]. }
  intros fp. apply stops_bind.
  - destruct (size fp >=? 4); [|apply stops_ret].
    apply stops_bind; [apply stops_read|].
    intros header. apply stops_ret.
  - intros [label|]; [apply stops_ret|].
    destruct (size fp >? 100 * 1024 * 1024); [apply stops_ret|].
    destruct b as [U|].
    + unfold detect_uchardet. apply stops_bind; [apply stops_scan|].
      intros [st d|st d]; [apply stops_ret|].
      destruct (final_utf8_errors st <? 5); apply stops_ret.
    + unfold detect_plain. apply stops_bind; [apply stops_read|].
      intros buf. cbv zeta. destruct (_ >? _); apply stops_ret.
Qed.

(** X12. [Detect] does not go on after a failed read: of the reads it
    issued, only the last can have failed, and none has when it returns
    a label. *)
Theorem Detect_stops_at_failure b fs file log :
  exists evs,
    fst (Detect b fs file log) = log ++ evs
    /\ Forall (fun ev => ev_ok ev = true) (removelast evs)
    /\ (forall label,
          snd (Detect b fs file log) = Ok label ->
          Forall (fun ev => ev_ok ev = true) evs).
Proof. exact (stops_Detect b fs file log). Qed.

(** ** The classes of bytes *)

(** X15. The number of leading ones sorts the bytes by value as UTF-8
    does: below 0x80 none (ASCII), 0x80 to 0xBF one (continuation),
    0xC0 to 0xDF two, 0xE0 to 0xEF three, 0xF0 to 0xF7 four (lead
    bytes), and from 0xF8 on more than four (invalid). *)
Theorem countl_one_classes c :
  (countl_one c = 0 <-> uchar c < 128)
  /\ (countl_one c = 1 <-> 128 <= uchar c < 192)
  /\ (countl_one c = 2 <-> 192 <= uchar c < 224)
  /\ (countl_one c = 3 <-> 224 <= uchar c < 240)
  /\ (countl_one c = 4 <-> 240 <= uchar c < 248)
  /\ (4 < countl_one c <-> 248 <= uchar c).
Proof.
  destruct c; vm_compute; intuition congruence.
Qed.

(** ** Files that open with a NUL byte *)

(** C5. The file made of 00, 4095 times 01 and 100 times 61 starts with
    none of the listed signatures, has less than 100 MiB, and after its
    first window holds more control-like bytes than an eighth of
    [offset]; yet [Detect] with [uchardet] answers "utf-32be", not
    "binary". [strncmp] stops at the NUL that opens the UTF-32BE
    literal, so that comparison succeeds on the first byte alone and the
    scan is never reached. *)
Theorem Detect_nul_header_no_short_circuit (U : uchardet) :
  matches_listed_signature (contents nul_control_file) = false
  /\ size nul_control_file <= 100 * 1024 * 1024
  /\ trips (contents nul_control_file) 1
  /\ Detect (WITH_UCHARDET U) (one_file nul_control_file) "a.ass" []
     = ([ReadEvent 0 4 true], Ok "utf-32be")
  /\ snd (Detect (WITH_UCHARDET U) (one_file nul_control_file) "a.ass" [])
     <> Ok "binary".
Proof.
  assert (Hrun : Detect (WITH_UCHARDET U) (one_file nul_control_file) "a.ass" []
                 = ([ReadEvent 0 4 true], Ok "utf-32be")).
  { apply (Detect_signature (WITH_UCHARDET U) (one_file nul_control_file)
             "a.ass" nul_control_file [] "utf-32be" eq_refl (fun _ => eq_refl)).
    - vm_compute. discriminate.
    - reflexivity. }
  split; [reflexivity|].
  split; [vm_compute; discriminate|].
  split; [reflexivity|].
  split; [exact Hrun|].
  rewrite Hrun. discriminate.
Qed.

(** C7. The files 00 61 62 63 and 00 followed by 15 times 61 start with
    none of the listed signatures and have less than 100 MiB. The first
    has more control-like bytes in its first window than an eighth of
    the bytes read, the second has not; yet [Detect] without [uchardet]
    answers "utf-32be" on both, neither "binary" nor "utf-8", for the
    same reason: the UTF-32BE comparison of [strncmp] ends at the NUL
    that opens its literal. *)
Theorem Detect_plain_nul_header :
  (matches_listed_signature (contents nul_binary_file) = false
   /\ size nul_binary_file <= 100 * 1024 * 1024
   /\ control_count
        (firstn (Z.to_nat (Z.min 4096 (size nul_binary_file)))
           (contents nul_binary_file))
      > Z.min 4096 (size nul_binary_file) / 8
   /\ Detect WITHOUT_UCHARDET (one_file nul_binary_file) "a.ass" []
      = ([ReadEvent 0 4 true], Ok "utf-32be"))
  /\ (matches_listed_signature (contents nul_text_file) = false
      /\ size nul_text_file <= 100 * 1024 * 1024
      /\ control_count
           (firstn (Z.to_nat (Z.min 4096 (size nul_text_file)))
              (contents nul_text_file))
         <= Z.min 4096 (size nul_text_file) / 8
      /\ Detect WITHOUT_UCHARDET (one_file nul_text_file) "a.ass" []
         = ([ReadEvent 0 4 true], Ok "utf-32be")).
Proof.
  split.
  - split; [reflexivity|]. split; [vm_compute; discriminate|].
    split; reflexivity.
  - split; [reflexivity|]. split; [vm_compute; discriminate|].
    split; [vm_compute; discriminate | reflexivity].
Qed.

End charset.

Module subtitles_provider_facts.
Import subtitles_provider.

Lemma ass_text_flat_map text : ass_text text = tags ++ flat_map escaped text.
Proof.
  unfold ass_text. generalize tags as acc.
  induction text as [|c text IH]; intros acc; cbn [fold_left flat_map].
  - now rewrite app_nil_r.
  - rewrite IH, <- app_assoc. reflexivity.
Qed.

Lemma escaped_cases c :
  (escaped c = [c] /\ c <> x0a /\ c <> x20 /\ c <> x7b)
  \/ (exists e, escaped c = [x5c; e] /\ e <> x0a /\ e <> x20).
Proof.
  unfold escaped.
  destruct (Byte.eqb c x0a) eqn:E0;
    [right; exists x4e; repeat split; discriminate|].
  destruct (Byte.eqb c x20) eqn:E1;
    [right; exists x68; repeat split; discriminate|].
  destruct (Byte.eqb c x7b) eqn:E2;
    [right; exists x7b; repeat split; discriminate|].
  left. repeat split; now apply Byte.eqb_false.
Qed.

Lemma flat_map_escaped_clean text c :
  c = x0a \/ c = x20 -> ~ In c (flat_map escaped text).
Proof.
  intros Hc. induction text as [|b text IH]; cbn [flat_map]; [tauto|].
  intros Hin. apply in_app_or in Hin as [Hin|Hin]; [|tauto].
  destruct (escaped_cases b) as [(Hb & H0 & H1 & _) | (e & Hb & H0 & H1)];
    rewrite Hb in Hin; cbn [In] in Hin; destruct Hc; subst;
    intuition congruence.
Qed.

Lemma flat_map_escaped_braces text : forall i,
  nth_error (flat_map escaped text) i = Some x7b ->
  exists j, i = S j /\ nth_error (flat_map escaped text) j = Some x5c.
Proof.
  induction text as [|b text IH]; intros i Hi; cbn [flat_map] in *.
  - destruct i; discriminate.
  - destruct (escaped_cases b) as [(He & _ & _ & Hb) | (e & He & _)];
      rewrite He in *; cbn [app] in *.
    + destruct i as [|i]; cbn [nth_error] in Hi; [congruence|].
      destruct (IH i Hi) as (j & -> & Hj). exists (S j). split; [reflexivity|].
      exact Hj.
    + destruct i as [|[|i]]; cbn [nth_error] in Hi; [discriminate| |].
      * exists 0%nat. split; reflexivity.
      * destruct (IH i Hi) as (j & -> & Hj). exists (S (S j)).
        split; [reflexivity | exact Hj].
Qed.

(** X13. The text handed to the renderer is the tags followed by a
    body that holds no line feed and no space, and in which every
    opening brace comes right after a backslash. *)
Theorem ass_text_escaped text :
  exists body,
    ass_text text = tags ++ body
    /\ ~ In x0a body /\ ~ In x20 body
    /\ forall i, nth_error body i = Some x7b ->
         exists j, i = S j /\ nth_error body j = Some x5c.
Proof.
  exists (flat_map escaped text). split; [apply ass_text_flat_map|].
  split; [apply flat_map_escaped_clean; tauto|].
  split; [apply flat_map_escaped_clean; tauto|].
  apply flat_map_escaped_braces.
Qed.

(** X14. The text is never longer than what was reserved for it, and is
    that long only if every character of the input had to be escaped;
    it is never shorter than the tags and the input together. *)
Theorem ass_text_length text :
  (length tags + length text <= length (ass_text text) <= reserved text)%nat
  /\ (length (ass_text text) = reserved text <->
      Forall (fun c => c = x0a \/ c = x20 \/ c = x7b) text).
Proof.
  rewrite ass_text_flat_map, length_app. unfold reserved.
  induction text as [|c text IH]; cbn [flat_map length].
  - split; [lia|]. split; [constructor | reflexivity].
  - rewrite length_app. destruct IH as [IHb IHe].
    destruct (escaped_cases c) as [(He & H0 & H1 & H2) | (e & He & _)].
    + rewrite He. cbn [length]. split; [lia|]. split.
      * intros Hlen. lia.
      * intros Hall. inversion Hall; subst. intuition congruence.
    + rewrite He. cbn [length]. split; [lia|]. split.
      * intros Hlen. constructor; [|apply IHe; lia].
        unfold escaped in He.
        destruct (Byte.eqb c x0a) eqn:E0;
          [left; now apply Byte.byte_dec_bl|].
        destruct (Byte.eqb c x20) eqn:E1;
          [right; left; now apply Byte.byte_dec_bl|].
        destruct (Byte.eqb c x7b) eqn:E2;
          [right; right; now apply Byte.byte_dec_bl | discriminate].
      * intros Hall. inversion Hall; subst.
        apply IHe in H2. lia.
Qed.

End subtitles_provider_facts.
